(** * The flow-trigger webhook prober ([POST /flow/start])

    A shallow embedding of the [/flow/start] handler of the LigueLead
    gateway, and the properties its specification states about it.

    The handler is asynchronous JavaScript: it logs, awaits outbound
    [axios.post] calls, awaits a timer, pushes attempt records on a local
    array and answers through the Express response object, all under two
    nested [try]/[catch] blocks.  It is embedded as a computation in a
    state-and-exception monad whose state is the chronological trace of
    the effects performed so far. *)

From Stdlib Require Import ZArith Ascii String.
From stdpp Require Import base list strings.

Local Open Scope string_scope.
Local Open Scope Z_scope.
Local Open Scope list_scope.

Set Warnings "-register-all".

(** ** JavaScript values *)

(** The values the handler passes around: JSON documents, plus
    [undefined].  Numbers are integers: the handler only ever tests a
    number for being zero and compares a status with [400] and [422]. *)
Inductive JSValue : Type :=
  | JUndefined
  | JNull
  | JBool (b : bool)
  | JNum (n : Z)
  | JStr (s : string)
  | JArr (items : list JSValue)
  | JObj (fields : list (string * JSValue)).

(** [ToBoolean]: what [x || y] and [x && y] test. *)
Definition truthy (v : JSValue) : bool :=
  match v with
  | JUndefined | JNull => false
  | JBool b => b
  | JNum n => negb (n =? 0)
  | JStr s => negb (String.eqb s "")
  | JArr _ | JObj _ => true
  end.

(** [a || b] *)
Definition js_or (a b : JSValue) : JSValue := if truthy a then a else b.

(** ** HTTP responses and errors *)

(** [resp] of a resolved call, [err.response] of a rejected one. *)
Record HttpResponse : Type := mkResponse { status : Z; data : JSValue }.

(** A thrown JavaScript error object: [err.response] is absent on a
    transport failure and on any error that does not come from axios. *)
Record JSError : Type := mkError { response : option HttpResponse; message : string }.

(** [err.response?.status] *)
Definition err_status (err : JSError) : JSValue :=
  match response err with
  | Some r => JNum (status r)
  | None => JUndefined
  end.

(** [err.response?.data] *)
Definition err_data (err : JSError) : JSValue :=
  match response err with
  | Some r => data r
  | None => JUndefined
  end.

(** [[422, 400].includes(status)]: strict equality with one of the two
    numbers. *)
Definition includes_422_400 (st : JSValue) : bool :=
  match st with
  | JNum n => (n =? 422) || (n =? 400)
  | _ => false
  end.

(** The guard of the abort branch, [status && ![422, 400].includes(status)]. *)
Definition non_recoverable (st : JSValue) : bool :=
  truthy st && negb (includes_422_400 st).

(** ** Effects *)

Record Request : Type := mkRequest {
  req_url : string;
  req_body : JSValue;
  req_headers : list (string * string);
  req_timeout : Z
}.

(** One constructor per [console.log]/[console.error] call of the handler. *)
Inductive LogLine : Type :=
  | LogReceived
  | LogTrying (payload : JSValue)
  | LogAccepted (payload : JSValue) (st : Z)
  | LogFailed (payload st dat : JSValue)
  | LogAborting
  | LogNoneWorked
  | LogInternal (err : JSError).

Inductive Event : Type :=
  | Log (line : LogLine)
  | Post (req : Request)
  | Delay (ms : Z)
  | Reply (code : Z) (body : JSValue).

(** The state of one invocation: the effects performed so far, oldest
    first. *)
Definition World : Type := list Event.

(** How a statement completes. *)
Inductive Completion (A : Type) : Type :=
  | Normal (a : A)
  | Throw (err : JSError).
Arguments Normal {A} a.
Arguments Throw {A} err.

(** What surrounds the handler.  [axios k req] is how the [k]-th outbound
    call (counting from 0) completes when it carries [req]; [fault h ev]
    is [Some err] when performing the effect [ev] after the history [h]
    raises [err] instead (a console, timer or response object that
    throws). *)
Record Env : Type := mkEnv {
  axios : nat → Request → Completion HttpResponse;
  fault : World → Event → option JSError
}.

(** An environment whose console, timer and response object never throw. *)
Definition no_faults (E : Env) : Prop := ∀ h ev, fault E h ev = None.

(** ** The monad *)

Definition M (A : Type) : Type := World → Completion A * World.

Global Instance M_ret : MRet M := λ A a w, (Normal a, w).

Global Instance M_bind : MBind M := λ A B f m w,
  match m w with
  | (Normal a, w') => f a w'
  | (Throw err, w') => (Throw err, w')
  end.

(** [try { body } catch (err) { handler }] *)
Definition try_catch {A} (body : M A) (handler : JSError → M A) : M A := λ w,
  match body w with
  | (Normal a, w') => (Normal a, w')
  | (Throw err, w') => handler err w'
  end.

Definition posts (w : World) : list Request :=
  omap (λ ev, match ev with Post r => Some r | _ => None end) w.

Definition delays (w : World) : list Z :=
  omap (λ ev, match ev with Delay ms => Some ms | _ => None end) w.

Definition replies (w : World) : list (Z * JSValue) :=
  omap (λ ev, match ev with Reply c b => Some (c, b) | _ => None end) w.

(** [apiToken] and [appId] are the module constants read from the
    environment at load time; [env_APITOKEN] and [env_APPID] are
    [process.env.APITOKEN] and [process.env.APPID] as the handler reads them
    again at each request. *)
Record Config : Type := mkConfig {
  apiToken : string;
  appId : string;
  env_APITOKEN : option string;
  env_APPID : option string
}.

Section Handler.

Variable E : Env.

(** Perform an effect that returns nothing. *)
Definition perform (ev : Event) : M unit := λ w,
  match fault E w ev with
  | Some err => (Throw err, w)
  | None => (Normal tt, w ++ [ev])
  end.

Definition console_log (line : LogLine) : M unit := perform (Log line).

(** [await delay(ms)] *)
Definition delay (ms : Z) : M unit := perform (Delay ms).

(** [res.status(code).json(body)] *)
Definition res_status_json (code : Z) (body : JSValue) : M unit :=
  perform (Reply code body).

(** [res.json(body)]: the status of a fresh Express response is 200. *)
Definition res_json (body : JSValue) : M unit := res_status_json 200 body.

(** [await axios.post(url, payload, { headers, timeout })] *)
Definition axios_post (req : Request) : M HttpResponse := λ w,
  (axios E (length (posts w)) req, w ++ [Post req]).

(** *** Module state and request-time configuration *)

Variable cfg : Config.

Definition env_truthy (v : option string) : bool :=
  match v with
  | Some s => negb (String.eqb s "")
  | None => false
  end.

Definition url : string :=
  "https://areadocliente.liguelead.com.br/api/crm/webhook/f914ed2e-30d3-4c5a-b4a4-6fe7ea1223d3"%string.

Definition headers : list (string * string) :=
  [("Content-Type", "application/json")]
  ++ (if env_truthy (env_APITOKEN cfg) then [("api-token", apiToken cfg)] else [])
  ++ (if env_truthy (env_APPID cfg) then [("app-id", appId cfg)] else []).

(** The arguments of [axios.post(url, payload, { headers, timeout: 10000 })]. *)
Definition request (payload : JSValue) : Request :=
  {| req_url := url; req_body := payload; req_headers := headers; req_timeout := 10000 |}.

(** *** The objects the handler builds *)

(** [{ payload, status: status || 'no-response', data: data || err.message }] *)
Definition attempt (payload : JSValue) (err : JSError) : JSValue :=
  JObj [("payload", payload);
        ("status", js_or (err_status err) (JStr "no-response"));
        ("data", js_or (err_data err) (JStr (message err)))].

(** [{ ok: true, usedPayload: payload, response: resp.data }] *)
Definition success_body (payload : JSValue) (resp : HttpResponse) : JSValue :=
  JObj [("ok", JBool true); ("usedPayload", payload); ("response", data resp)].

(** [{ error: data || err.message, attempts: results }] *)
Definition abort_body (err : JSError) (results : list JSValue) : JSValue :=
  JObj [("error", js_or (err_data err) (JStr (message err)));
        ("attempts", JArr results)].

Definition exhausted_message : string :=
  "Nenhum payload aceito pelo webhook. Verifique schema esperado pela LigueLead.".

(** [{ ok: false, message: '...', attempts: results }] *)
Definition exhausted_body (results : list JSValue) : JSValue :=
  JObj [("ok", JBool false);
        ("message", JStr exhausted_message);
        ("attempts", JArr results)].

(** [{ error: err.message }] *)
Definition internal_body (err : JSError) : JSValue :=
  JObj [("error", JStr (message err))].

(** The number passed to [res.status(status)].  The call sits under the
    guard [status && ...], so [status] is a number there; the other
    branch is never taken. *)
Definition status_code (st : JSValue) : Z :=
  match st with
  | JNum n => n
  | _ => 200
  end.

(** *** The probe loop *)

(** The body of the [catch (err)] block of one attempt.  [results] is the
    local array before the [push]; the result is [None] when the handler
    returned, [Some results'] when the loop goes on with the array as it
    is after the [push]. *)
Definition on_failure (payload : JSValue) (results : list JSValue) (err : JSError)
  : M (option (list JSValue)) :=
  let st := err_status err in
  let dat := err_data err in
  console_log (LogFailed payload st dat);;
  let results := results ++ [attempt payload err] in
  if non_recoverable st then
    console_log LogAborting;;
    res_status_json (status_code st) (abort_body err results);;
    mret None
  else
    delay 300;;
    mret (Some results).

(** One iteration of [for (const payload of candidates)]. *)
Definition try_payload (payload : JSValue) (results : list JSValue)
  : M (option (list JSValue)) :=
  console_log (LogTrying payload);;
  try_catch
    (resp ← axios_post (request payload);
     console_log (LogAccepted payload (status resp));;
     res_json (success_body payload resp);;
     mret None)
    (on_failure payload results).

(** The [for] loop: [None] when an iteration returned from the handler,
    [Some results] when the loop ran off the end of the list. *)
Fixpoint probe_loop (candidates : list JSValue) (results : list JSValue)
  : M (option (list JSValue)) :=
  match candidates with
  | [] => mret (Some results)
  | payload :: rest =>
      r ← try_payload payload results;
      match r with
      | None => mret None
      | Some results => probe_loop rest results
      end
  end.

(** The handler, for an arbitrary candidate list. *)
Definition probe (candidates : list JSValue) : M unit :=
  console_log LogReceived;;
  try_catch
    (r ← probe_loop candidates [];
     match r with
     | None => mret tt
     | Some results =>
         console_log LogNoneWorked;;
         res_status_json 422 (exhausted_body results)
     end)
    (λ err,
       console_log (LogInternal err);;
       res_status_json 500 (internal_body err)).

(** *** The fixed candidate list *)

Definition candidates : list JSValue :=
  [ JObj [("event", JStr "iniciar_flow")];
    JObj [("event", JStr "start_flow")];
    JObj [("action", JStr "iniciar_flow")];
    JObj [("action", JStr "start_flow")];
    JObj [("type", JStr "iniciar_flow")];
    JObj [("type", JStr "start_flow")];
    JObj [("trigger", JStr "iniciar_flow")];
    JObj [("trigger", JStr "start_flow")];
    JObj [("event", JObj [("name", JStr "iniciar_flow")])];
    JObj [("event", JObj [("name", JStr "start_flow")])];
    JObj [("event", JStr "iniciar_flow"); ("leadId", JStr "manual-test-1")];
    JObj [("event", JStr "iniciar_flow");
          ("lead", JObj [("id", JStr "manual-test-1"); ("name", JStr "Teste")])];
    JObj [("action", JStr "start_flow"); ("data", JObj [("source", JStr "api")])];
    JObj [];
    JObj [] ].

(** [app.post('/flow/start', async (req, res) => { ... })] *)
Definition flow_start : M unit := probe candidates.

End Handler.

(** ** Vocabulary of the specification *)

(** The three terminal outcomes of a probe run, as the data model of the
    specification lists them. *)
Inductive Outcome : Type :=
  | FirstSuccess (usedPayload response : JSValue)
  | NonRecoverable (code : Z) (error : JSValue) (attempts : list JSValue)
  | Exhausted (attempts : list JSValue).

(** The HTTP answer the specification gives for each outcome (its external
    interfaces); the answers of the handler are compared with it. *)
Definition reply_of (o : Outcome) : Z * JSValue :=
  match o with
  | FirstSuccess p r =>
      (200, JObj [("ok", JBool true); ("usedPayload", p); ("response", r)])
  | NonRecoverable c e a =>
      (c, JObj [("error", e); ("attempts", JArr a)])
  | Exhausted a =>
      (422, JObj [("ok", JBool false); ("message", JStr exhausted_message);
                  ("attempts", JArr a)])
  end.

(** A failed call whose response carries a status of the recoverable set. *)
Definition recoverable_failure (err : JSError) : Prop :=
  ∃ r, response err = Some r ∧ (status r = 400 ∨ status r = 422).

(** A failed call without a response object. *)
Definition no_response (err : JSError) : Prop := response err = None.

(** A failed call that does not pass the abort guard. *)
Definition continuable (err : JSError) : Prop :=
  non_recoverable (err_status err) = false.

(** Some effect of the console, the timer or the response object raises. *)
Definition faulted (E : Env) : Prop := ∃ h ev err, fault E h ev = Some err.

(** The answer of the outer [catch]: HTTP 500 with a body [{error}]. *)
Definition internal_reply (r : Z * JSValue) : Prop :=
  ∃ m, r = (500, JObj [("error", m)]).

(** A statement raises only when some effect faulted. *)
Definition only_faults_raise {A} (E : Env) (c : Completion A) : Prop :=
  match c with
  | Normal _ => True
  | Throw _ => faulted E
  end.

(** A failed call after which the loop goes on: it came without response,
    or with a response whose status is 400 or 422 (or 0, which the guard
    takes for no status). *)
Definition tolerated (err : JSError) : Prop :=
  response err = None
  ∨ ∃ r, response err = Some r ∧ (status r = 0 ∨ status r = 400 ∨ status r = 422).

(** At the history [h] the console, the timer or the response object
    raised [err]: an effect that is no outbound call. *)
Definition raised_at (E : Env) (h : World) (err : JSError) : Prop :=
  ∃ ev, fault E h ev = Some err ∧ ∀ req, ev ≠ Post req.

(** A statement that only appends to the trace, and that raises only what
    an effect raised at the trace it leaves. *)
Definition raises_faults (E : Env) {A} (m : M A) : Prop :=
  ∀ w, (∃ evs, (m w).2 = w ++ evs)
       ∧ ∀ err, (m w).1 = Throw err → raised_at E (m w).2 err.

(** Events among which every delay is the 300 ms one and no answer is that
    of the outer [catch]. *)
Definition harmless (evs : list Event) : Prop :=
  Forall (λ ms, ms = 300) (delays evs)
  ∧ Forall (λ r, ¬ internal_reply r) (replies evs).

(** [runs m Q]: from any state, [m] extends the trace by some events [evs]
    and completes with some [c] such that [Q c evs]. *)
Definition runs {A} (m : M A) (Q : Completion A → list Event → Prop) : Prop :=
  ∀ w, ∃ evs, (m w).2 = w ++ evs ∧ Q (m w).1 evs.

(** How the calls complete when the candidates [cands] are tried one after
    the other, the first of them being outbound call number [k0]. *)
Definition outcomes (E : Env) (cfg : Config) (k0 : nat) (cands : list JSValue)
  : list (Completion HttpResponse) :=
  imap (λ k p, axios E (k0 + k) (request cfg p)) cands.

(** The effects of one attempt that fails and does not abort the run. *)
Definition failed_events (cfg : Config) (p : JSValue) (err : JSError) : list Event :=
  [Log (LogTrying p); Post (request cfg p);
   Log (LogFailed p (err_status err) (err_data err)); Delay 300].

(** The effects of the attempt that is accepted. *)
Definition accepted_events (cfg : Config) (p : JSValue) (resp : HttpResponse) : list Event :=
  [Log (LogTrying p); Post (request cfg p);
   Log (LogAccepted p (status resp)); Reply 200 (success_body p resp)].

(** The effects of the attempt that aborts the run; [results] is the array
    after the [push]. *)
Definition aborted_events (cfg : Config) (p : JSValue) (err : JSError)
    (results : list JSValue) : list Event :=
  [Log (LogTrying p); Post (request cfg p);
   Log (LogFailed p (err_status err) (err_data err)); Log LogAborting;
   Reply (status_code (err_status err)) (abort_body err results)].

(** ** Scenarios *)

(** Environments and candidate lists of the concrete scenarios the
    specification lists; the properties are instantiated on them below. *)

Definition quiet : World → Event → option JSError := λ _ _, None.

Definition cfg0 : Config :=
  {| apiToken := "token"; appId := "app";
     env_APITOKEN := Some "token"; env_APPID := Some "app" |}.

(** The error axios raises for a response with a status outside [2xx]. *)
Definition status_error (code : Z) (body : JSValue) (msg : string) : JSError :=
  {| response := Some {| status := code; data := body |}; message := msg |}.

(** The error axios raises when no response arrives. *)
Definition network_error (msg : string) : JSError :=
  {| response := None; message := msg |}.

Definition error_422 : JSError :=
  status_error 422 (JObj [("error", JStr "invalid")]) "Request failed with status code 422".

Definition two_candidates : list JSValue :=
  [JObj [("event", JStr "iniciar_flow")]; JObj [("action", JStr "iniciar_flow")]].

Definition queued : HttpResponse :=
  {| status := 200; data := JObj [("queued", JBool true)] |}.

(** 422 for the first call, 200 with [{queued: true}] afterwards. *)
Definition env_422_then_200 : Env :=
  {| axios := λ k _,
       match k with
       | O => Throw error_422
       | _ => Normal queued
       end;
     fault := quiet |}.

(** No response for the first call, 200 with [{queued: true}] afterwards. *)
Definition env_down_then_200 : Env :=
  {| axios := λ k _,
       match k with
       | O => Throw (network_error "connect ECONNREFUSED")
       | _ => Normal queued
       end;
     fault := quiet |}.

Definition one_candidate : list JSValue := [JObj [("event", JStr "iniciar_flow")]].

(** 503 with the given body for every call. *)
Definition env_503 (body : JSValue) : Env :=
  {| axios := λ _ _, Throw (status_error 503 body "Request failed with status code 503");
     fault := quiet |}.

(** 422 for the first [n] calls, 200 with [{queued: true}] afterwards. *)
Definition env_422_until (n : nat) : Env :=
  {| axios := λ k _,
       if (k <? n)%nat
       then Throw error_422
       else Normal queued;
     fault := quiet |}.

(** 422 for the first call, no response afterwards. *)
Definition env_422_then_down : Env :=
  {| axios := λ k _,
       match k with
       | O => Throw error_422
       | _ => Throw (network_error "timeout of 10000ms exceeded")
       end;
     fault := quiet |}.

(** 422 for every call. *)
Definition env_always_422 : Env :=
  {| axios := λ _ _, Throw error_422; fault := quiet |}.

(** 422 for every call, and a console that throws on the line that reports
    exhaustion. *)
Definition env_console_breaks : Env :=
  {| axios := λ _ _, Throw error_422;
     fault := λ _ ev,
       match ev with
       | Log LogNoneWorked => Some (network_error "write EPIPE")
       | _ => None
       end |}.

(** Every call would be accepted, but the response object throws on the
    first answer. *)
Definition env_first_answer_breaks : Env :=
  {| axios := λ _ _, Normal queued;
     fault := λ h ev,
       match ev with
       | Reply _ _ => if decide (length (posts h) = 1%nat)
                      then Some (network_error "Converting circular structure to JSON")
                      else None
       | _ => None
       end |}.

(** ** More scenarios of the prober *)

(** 422 for the first call, 503 with a body afterwards. *)
Definition env_422_then_503 : Env :=
  {| axios := λ k _,
       match k with
       | O => Throw error_422
       | _ => Throw (status_error 503 (JStr "maintenance")
                       "Request failed with status code 503")
       end;
     fault := quiet |}.

(** What a statement of the loop leaves behind: no more delays than calls,
    and one answer at most, given only when the handler returns. *)
Definition paced (c : Completion (option (list JSValue))) (evs : list Event) : Prop :=
  (length (delays evs) ≤ length (posts evs))%nat
  ∧ match c with
    | Normal None => (length (replies evs) ≤ 1)%nat
    | _ => replies evs = []
    end.

(** ** Traces of effects, for any kind of event *)

(** The monad of the prober again, over an arbitrary type of events: the
    other handlers of the gateway and the start-up code of the user API
    perform other effects than the prober does. *)
Module Effects.

Section WithEvents.

Variable Ev : Type.

Definition T (A : Type) : Type := list Ev → Completion A * list Ev.

#[export] Instance T_ret : MRet T := λ A a w, (Normal a, w).

#[export] Instance T_bind : MBind T := λ A B f m w,
  match m w with
  | (Normal a, w') => f a w'
  | (Throw err, w') => (Throw err, w')
  end.

(** [throw err] *)
Definition throw {A} (err : JSError) : T A := λ w, (Throw err, w).

(** [try { body } catch (err) { handler }] *)
Definition try_catch {A} (body : T A) (handler : JSError → T A) : T A := λ w,
  match body w with
  | (Normal a, w') => (Normal a, w')
  | (Throw err, w') => handler err w'
  end.

(** Perform the effect [ev], which raises when [raises] says so for the
    trace so far, and is appended to the trace otherwise. *)
Definition perform (raises : list Ev → Ev → option JSError) (ev : Ev) : T unit := λ w,
  match raises w ev with
  | Some err => (Throw err, w)
  | None => (Normal tt, w ++ [ev])
  end.

(** [runs m Q]: from any trace, [m] appends some events [evs] and completes
    with some [c] such that [Q c evs]. *)
Definition runs {A} (m : T A) (Q : Completion A → list Ev → Prop) : Prop :=
  ∀ w, ∃ evs, (m w).2 = w ++ evs ∧ Q (m w).1 evs.

End WithEvents.

Arguments throw {Ev A} err.
Arguments try_catch {Ev A} body handler.
Arguments perform {Ev} raises ev.
Arguments runs {Ev A} m Q.

End Effects.

(** ** The other handlers of the LigueLead gateway *)

Module Gateway.

Import Effects.

(** *** Start-up *)

(** The module body up to the two constants: after [dotenv.config()] it
    throws unless [process.env.APITOKEN] and [process.env.APPID] are both
    set and not empty, and it keeps their values in [apiToken] and
    [appId]. *)
Definition load (env_token env_appid : option string) : Completion Config :=
  if negb (env_truthy env_token) || negb (env_truthy env_appid)
  then Throw {| response := None;
                message := "APITOKEN and APPID must be set in the .env file" |}
  else
    match env_token, env_appid with
    | Some token, Some app_id =>
        Normal {| apiToken := token; appId := app_id;
                  env_APITOKEN := env_token; env_APPID := env_appid |}
    | _, _ =>
        Throw {| response := None;
                 message := "APITOKEN and APPID must be set in the .env file" |}
    end.

(** *** What the handlers read from the inbound request *)

(** [req.file], as multer leaves it for [upload.single('audio')]. *)
Record UploadedFile : Type := mkFile { file_path : string; originalname : string }.

(** [obj[k]] for an object given by its own properties. *)
Fixpoint lookup_field (k : string) (fields : list (string * JSValue)) : JSValue :=
  match fields with
  | [] => JUndefined
  | (k', v) :: rest => if String.eqb k k' then v else lookup_field k rest
  end.

(** [v.k] for one of the names the handlers read ([title], [audio_id],
    [phones], [message]), where [v] is neither [undefined] nor [null]:
    only an object has such a property. *)
Definition field (v : JSValue) (k : string) : JSValue :=
  match v with
  | JObj fields => lookup_field k fields
  | _ => JUndefined
  end.

(** [Array.isArray(v)] *)
Definition is_array (v : JSValue) : bool :=
  match v with
  | JArr _ => true
  | _ => false
  end.

(** [v.length === 0] for an array [v]. *)
Definition length_is_zero (v : JSValue) : bool :=
  match v with
  | JArr [] => true
  | _ => false
  end.

(** [v === s] for a string literal [s]. *)
Definition is_string (v : JSValue) (s : string) : bool :=
  match v with
  | JStr s' => String.eqb s' s
  | _ => false
  end.

(** *** Effects *)

(** One entry of the [FormData] of [/audio]. *)
Inductive FormEntry : Type :=
  | FormField (name : string) (value : JSValue)
  | FormStream (name : string) (path : string) (filename : string).

(** The outbound calls: [axios.get(url, { headers, params })],
    [axios.post(url, data, { headers })] with a JSON body or with a form.
    [params] is [None] where the call has no [params] option. *)
Inductive Call : Type :=
  | AxiosGet (url : string) (hdrs : list (string * string))
      (params : option (list (string * JSValue)))
  | AxiosPost (url : string) (body : JSValue) (hdrs : list (string * string))
  | AxiosPostForm (url : string) (form : list FormEntry) (hdrs : list (string * string)).

(** One constructor per text the handlers log, with the values logged
    after the text. *)
Inductive Line : Type :=
  | LAudioReceived
  | LAudiosReceived
  | LAudioByIdReceived (id : string)
  | LVoiceReceived
  | LCampaignsReceived (id : string)
  | LMissingParams
  | LInvalidParams
  | LParams (shown : JSValue)
  | LSending
  | LResponseReceived
  | LResponseData (st : Z) (dat : JSValue)
  | LAudiosListed
  | LAudioFetched
  | LCampaignsFetched
  | LRemoteError (st : Z) (dat : JSValue)
  | LEventNotFound
  | LAudioNotFound
  | LCampaignNotFound
  | LProcessError (msg : string)
  | LAudioFetchError (msg : string)
  | LCampaignsFetchError (msg : string).

Inductive Event : Type :=
  | Log (line : Line)
  | BuildForm (form : list FormEntry)
  | Called (call : Call)
  | Reply (code : Z) (body : JSValue).

Abbreviation World := (list Event).
Abbreviation M := (T Event).

Definition calls (w : World) : list Call :=
  omap (λ ev, match ev with Called c => Some c | _ => None end) w.

Definition replies (w : World) : list (Z * JSValue) :=
  omap (λ ev, match ev with Reply c b => Some (c, b) | _ => None end) w.

Definition logs (w : World) : list Line :=
  omap (λ ev, match ev with Log l => Some l | _ => None end) w.

(** What surrounds the handlers.  [axios k call] is how the [k]-th outbound
    call of the invocation completes; [fault h ev] is [Some err] when the
    effect [ev] raises after the history [h]; [type_error v] is the
    [TypeError] raised when a property of [v] is read and [v] is
    [undefined] or [null]; [form_headers] is what [formData.getHeaders()]
    returns. *)
Record Env : Type := mkEnv {
  axios : nat → Call → Completion HttpResponse;
  fault : World → Event → option JSError;
  type_error : JSValue → JSError;
  form_headers : list (string * string)
}.

Definition no_faults (E : Env) : Prop := ∀ h ev, fault E h ev = None.

(** At most one outbound call; at most one answer, and none when the
    statement raised. *)
Definition single_shot {A} (c : Completion A) (evs : World) : Prop :=
  (length (calls evs) ≤ 1)%nat
  ∧ match c with
    | Normal _ => (length (replies evs) ≤ 1)%nat
    | Throw _ => replies evs = []
    end.

Section Handlers.

Variable E : Env.
Variable cfg : Config.

Definition console_log (line : Line) : M unit := perform (fault E) (Log line).

(** [res.status(code).json(body)] *)
Definition res_status_json (code : Z) (body : JSValue) : M unit :=
  perform (fault E) (Reply code body).

(** [res.json(body)] *)
Definition res_json (body : JSValue) : M unit := res_status_json 200 body.

(** [await axios.get(...)], [await axios.post(...)] *)
Definition axios_call (call : Call) : M HttpResponse := λ w,
  (axios E (length (calls w)) call, w ++ [Called call]).

(** [const { k } = v]: reading a property of [undefined] or [null] raises. *)
Definition destructure (v : JSValue) (k : string) : M JSValue :=
  match v with
  | JUndefined | JNull => throw (type_error E v)
  | _ => mret (field v k)
  end.

(** [audioFile.originalname], [audioFile.path] *)
Definition file_object (file : option UploadedFile) : M UploadedFile :=
  match file with
  | Some f => mret f
  | None => throw (type_error E JUndefined)
  end.

(** [{ 'api-token': apiToken, 'app-id': appId }] *)
Definition credentials : list (string * string) :=
  [("api-token", apiToken cfg); ("app-id", appId cfg)].

(** [{ error: msg }] *)
Definition error_body (msg : string) : JSValue := JObj [("error", JStr msg)].

(** The end of the [catch] blocks of [/audios], [/voice] and
    [/campaigns/voice/:id] for an error without response, and the whole
    [catch] block of [/audio]. *)
Definition process_error (error : JSError) : M unit :=
  console_log (LProcessError (message error));;
  res_status_json 500 (error_body (message error)).

(** [app.post('/audio', upload.single('audio'), async (req, res) => ...)];
    [body] is [req.body] and [file] is [req.file]. *)
Definition post_audio (body : JSValue) (file : option UploadedFile) : M unit :=
  try_catch
    (console_log LAudioReceived;;
     title ← destructure body "title";
     if negb (truthy (JStr (apiToken cfg))) || negb (truthy (JStr (appId cfg)))
        || negb (bool_decide (is_Some file)) || negb (truthy title)
     then
       console_log LMissingParams;;
       res_status_json 400 (error_body "Parâmetros obrigatórios ausentes.")
     else
       audioFile ← file_object file;
       console_log (LParams (JObj [("title", title);
                                   ("audioFile", JStr (originalname audioFile));
                                   ("apiToken", JStr (apiToken cfg));
                                   ("appId", JStr (appId cfg))]));;
       let formData := [FormField "title" title;
                        FormStream "audio" (file_path audioFile) (originalname audioFile)] in
       perform (fault E) (BuildForm formData);;
       console_log LSending;;
       response ← axios_call (AxiosPostForm "https://api.liguelead.com.br/v1/audio"
                                formData (credentials ++ form_headers E));
       console_log LResponseReceived;;
       res_json (data response))
    process_error.

(** [app.get('/audios', async (req, res) => ...)] *)
Definition get_audios : M unit :=
  console_log LAudiosReceived;;
  try_catch
    (console_log (LParams (JObj [("apiToken", JStr (apiToken cfg));
                                 ("appId", JStr (appId cfg))]));;
     response ← axios_call (AxiosGet "https://api.liguelead.com.br/v1/audio"
                              credentials None);
     console_log (LResponseData (status response) (data response));;
     console_log LAudiosListed;;
     res_json (data response))
    (λ error,
       match response error with
       | Some r =>
           console_log (LRemoteError (status r) (data r));;
           res_status_json (status r) (data r)
       | None => process_error error
       end).

(** [error.response && error.response.status === 404] *)
Definition is_404 (error : JSError) : bool :=
  match response error with
  | Some r => status r =? 404
  | None => false
  end.

(** [app.get('/audio/:id', async (req, res) => ...)]; [id] is
    [req.params.id]. *)
Definition get_audio (id : string) : M unit :=
  console_log (LAudioByIdReceived id);;
  try_catch
    (console_log (LParams (JObj [("id", JStr id);
                                 ("apiToken", JStr (apiToken cfg));
                                 ("appId", JStr (appId cfg))]));;
     response ← axios_call (AxiosGet ("https://api.liguelead.com.br/v1/audio/" +:+ id)
                              credentials None);
     console_log LAudioFetched;;
     res_json (data response))
    (λ error,
       if is_404 error then
         console_log LAudioNotFound;;
         res_status_json 404 (error_body "Áudio não encontrado.")
       else
         console_log (LAudioFetchError (message error));;
         res_status_json 500 (error_body (message error))).

(** [app.post('/voice', async (req, res) => ...)]; [body] is [req.body]. *)
Definition post_voice (body : JSValue) : M unit :=
  console_log LVoiceReceived;;
  title ← destructure body "title";
  audio_id ← destructure body "audio_id";
  phones ← destructure body "phones";
  if negb (truthy title) || negb (truthy audio_id) || negb (truthy phones)
     || negb (is_array phones) || length_is_zero phones
  then
    console_log LInvalidParams;;
    res_status_json 400 (error_body "Parâmetros obrigatórios ausentes ou inválidos.")
  else
    try_catch
      (console_log (LParams (JObj [("title", title); ("audio_id", audio_id);
                                   ("phones", phones);
                                   ("apiToken", JStr (apiToken cfg));
                                   ("appId", JStr (appId cfg))]));;
       response ← axios_call
                    (AxiosPost "https://api.liguelead.com.br/v1/voice"
                       (JObj [("title", title); ("audio_id", audio_id);
                              ("phones", phones)])
                       (credentials ++ [("Content-Type", "application/json")]));
       console_log LResponseReceived;;
       res_json (data response))
      (λ error,
         match response error with
         | Some r =>
             console_log (LRemoteError (status r) (data r));;
             (if (status r =? 422) && truthy (data r)
                 && is_string (field (data r) "message") "Nenhum evento encontrado"
              then console_log LEventNotFound
              else mret tt);;
             res_status_json (status r) (data r)
         | None => process_error error
         end).

(** [app.get('/campaigns/voice/:id', async (req, res) => ...)]; [id] is
    [req.params.id], [page] and [per_page] are [req.query.page] and
    [req.query.per_page]. *)
Definition get_campaigns (id : string) (page per_page : JSValue) : M unit :=
  console_log (LCampaignsReceived id);;
  if negb (truthy (JStr id)) then
    console_log LMissingParams;;
    res_status_json 400 (error_body "Parâmetros obrigatórios ausentes.")
  else
    try_catch
      (let url := "https://api.liguelead.com.br/v1/campaigns/voice/" +:+ id in
       let params := (if truthy page then [("page", page)] else [])
                     ++ (if truthy per_page then [("per_page", per_page)] else []) in
       console_log (LParams (JObj [("id", JStr id); ("page", page);
                                   ("per_page", per_page);
                                   ("apiToken", JStr (apiToken cfg));
                                   ("appId", JStr (appId cfg))]));;
       response ← axios_call (AxiosGet url credentials (Some params));
       console_log LCampaignsFetched;;
       res_json (data response))
      (λ error,
         match response error with
         | Some r =>
             console_log (LRemoteError (status r) (data r));;
             res_status_json (status r) (data r)
         | None =>
             if is_404 error then
               console_log LCampaignNotFound;;
               res_status_json 404 (error_body "Campanha não encontrada.")
             else
               console_log (LCampaignsFetchError (message error));;
               res_status_json 500 (error_body (message error))
         end).

End Handlers.

(** What the answer of a relaying handler is for each way the call
    completes. *)
Definition relayed (c : Completion HttpResponse) : Z * JSValue :=
  match c with
  | Normal resp => (200, data resp)
  | Throw err =>
      match response err with
      | Some r => (status r, data r)
      | None => (500, error_body (message err))
      end
  end.

(** *** Scenarios *)

(** A provider that completes every call with [outcome], a console and a
    response object that never throw. *)
Definition provider (outcome : Completion HttpResponse) : Env :=
  {| axios := λ _ _, outcome;
     fault := λ _ _, None;
     type_error := λ _, network_error "Cannot destructure property of 'req.body'";
     form_headers := [("content-type", "multipart/form-data; boundary=x")] |}.

Definition no_event : Completion HttpResponse :=
  Throw (status_error 422 (JObj [("message", JStr "Nenhum evento encontrado")])
           "Request failed with status code 422").

Definition not_found : Completion HttpResponse :=
  Throw (status_error 404 (JObj [("detail", JStr "unknown id")])
           "Request failed with status code 404").

Definition voice_body : JSValue :=
  JObj [("title", JStr "Aviso"); ("audio_id", JNum 7);
        ("phones", JArr [JStr "5511999990000"])].

Definition upload : UploadedFile :=
  {| file_path := "uploads/3f2a"; originalname := "aviso.mp3" |}.

End Gateway.

(** ** Where the user API puts its database ([db.js]) *)

Module DbPath.

Import Effects.

(** What the module reads from the process and the operating system, and
    the functions of Node's [path] module it calls. *)
Record Platform : Type := mkPlatform {
  NODE_ENV : option string;            (* process.env.NODE_ENV *)
  DB_PATH : option string;             (* process.env.DB_PATH *)
  cwd : string;                        (* process.cwd() *)
  homedir : string;                    (* os.homedir() *)
  tmpdir : string;                     (* os.tmpdir() *)
  isAbsolute : string → bool;          (* path.isAbsolute *)
  resolve : string → string → string;  (* path.resolve *)
  extname : string → string;           (* path.extname *)
  dirname : string → string;           (* path.dirname *)
  join : list string → string          (* path.join *)
}.

(** One constructor per text the module prints while it resolves the path. *)
Inductive Line : Type :=
  | LTestMode
  | LUsingFile (resolved : string)
  | LUsingDirectory (file : string)
  | LNotWritable (dir : string)
  | LDbPathError (err : JSError)
  | LUsingCandidate (file : string)
  | LCandidateNotWritable (dir : string)
  | LCandidateError (dir : string) (err : JSError)
  | LNothingWritable.

(** The effects that went through: [fs.mkdirSync(dir, { recursive: true })],
    [fs.accessSync(dir, fs.constants.W_OK)], [console.log] and
    [console.warn]. *)
Inductive Event : Type :=
  | Mkdir (dir : string)
  | Access (dir : string)
  | Print (line : Line).

Abbreviation World := (list Event).
Abbreviation M := (T Event).

Section Resolve.

Variable P : Platform.

(** [raises h ev] is [Some err] when the file system (or the console)
    raises [err] on [ev] after the history [h]. *)
Variable raises : World → Event → option JSError.

(** [const isTest = process.env.NODE_ENV === "test"] *)
Definition isTest : bool :=
  match NODE_ENV P with
  | Some v => String.eqb v "test"
  | None => false
  end.

Definition ensureWritableDir (dir : string) : M bool :=
  try_catch
    (perform raises (Mkdir dir);;
     perform raises (Access dir);;
     mret true)
    (λ _, mret false).

(** The body of the [try] under [if (envPath)]: [Some] of the path the
    function returns there, [None] when it leaves the block without
    returning. *)
Definition use_env_path (envPath : string) : M (option string) :=
  let resolved := if isAbsolute P envPath then envPath
                  else resolve P (cwd P) envPath in
  let ext := extname P resolved in
  if negb (String.eqb ext "") then
    let dir := dirname P resolved in
    ok ← ensureWritableDir dir;
    if ok : bool then
      perform raises (Print (LUsingFile resolved));;
      mret (Some resolved)
    else
      perform raises (Print (LNotWritable dir));;
      mret None
  else
    ok ← ensureWritableDir resolved;
    if ok : bool then
      let file := join P [resolved; "database.sqlite"] in
      perform raises (Print (LUsingDirectory file));;
      mret (Some file)
    else
      perform raises (Print (LNotWritable resolved));;
      mret None.

(** [try { ... } catch (err) { console.warn(...) }] around it. *)
Definition from_env (envPath : string) : M (option string) :=
  try_catch (use_env_path envPath)
    (λ err,
       perform raises (Print (LDbPathError err));;
       mret None).

(** The body of the [try] of one iteration over the candidates. *)
Definition use_candidate (candidateDir : string) : M (option string) :=
  ok ← ensureWritableDir candidateDir;
  if ok : bool then
    let file := join P [candidateDir; "database.sqlite"] in
    perform raises (Print (LUsingCandidate file));;
    mret (Some file)
  else
    perform raises (Print (LCandidateNotWritable candidateDir));;
    mret None.

(** [for (const candidateDir of candidates) { try { ... } catch (err) { ... } }] *)
Fixpoint try_candidates (candidates : list string) : M (option string) :=
  match candidates with
  | [] => mret None
  | candidateDir :: rest =>
      r ← try_catch (use_candidate candidateDir)
            (λ err,
               perform raises (Print (LCandidateError candidateDir err));;
               mret None);
      match r with
      | Some file => mret (Some file)
      | None => try_candidates rest
      end
  end.

(** The three fallback directories, in the order of the source. *)
Definition candidates : list string :=
  [ join P [cwd P; "data"];
    join P [if String.eqb (homedir P) "" then "" else homedir P;
            ".local"; "share"; "octor-api"];
    tmpdir P ].

Definition resolveDbPath : M string :=
  if isTest then
    perform raises (Print LTestMode);;
    mret ":memory:"
  else
    r ← match DB_PATH P with
        | Some envPath =>
            if negb (String.eqb envPath "") then from_env envPath else mret None
        | None => mret None
        end;
    match r with
    | Some path => mret path
    | None =>
        r ← try_candidates candidates;
        match r with
        | Some file => mret file
        | None =>
            perform raises (Print LNothingWritable);;
            mret ":memory:"
        end
    end.

End Resolve.

(** The directory passes both checks whenever they are made. *)
Definition writable (raises : World → Event → option JSError) (dir : string) : Prop :=
  ∀ h, raises h (Mkdir dir) = None ∧ raises h (Access dir) = None.

(** One of the two checks fails whenever they are made. *)
Definition unwritable (raises : World → Event → option JSError) (dir : string) : Prop :=
  ∀ h, is_Some (raises h (Mkdir dir)) ∨ is_Some (raises (h ++ [Mkdir dir]) (Access dir)).

(** The console never throws. *)
Definition console_works (raises : World → Event → option JSError) : Prop :=
  ∀ h line, raises h (Print line) = None.

(** The directory the [DB_PATH] block checks for the value [envPath]: the
    directory of the file when the value has an extension, the value itself
    otherwise. *)
Definition env_target (P : Platform) (envPath : string) : string :=
  let resolved := if isAbsolute P envPath then envPath
                  else resolve P (cwd P) envPath in
  if negb (String.eqb (extname P resolved) "") then dirname P resolved else resolved.

(** [DB_PATH] gives no path: it is unset or empty, or the directory it
    designates is not writable. *)
Definition db_path_unusable (P : Platform) (raises : World → Event → option JSError)
  : Prop :=
  DB_PATH P = None ∨ DB_PATH P = Some ""
  ∨ ∃ envPath, DB_PATH P = Some envPath ∧ unwritable raises (env_target P envPath).

(** [dir] went through both checks, one right after the other. *)
Definition checked (w : World) (dir : string) : Prop :=
  ∃ w1 w2, w = w1 ++ [Mkdir dir; Access dir] ++ w2.

(** What a block that may return a path guarantees about it: it is a file
    whose directory was checked, or [database.sqlite] in a checked
    directory. *)
Definition sound (P : Platform) (c : Completion (option string)) (evs : World) : Prop :=
  ∀ path, c = Normal (Some path) →
    checked evs (dirname P path)
    ∨ ∃ dir, checked evs dir ∧ path = join P [dir; "database.sqlite"].

(** *** Scenarios *)

(** Stand-ins for the functions of [path] on a POSIX system, enough for
    the paths of the scenarios: a path is absolute when it starts with a
    slash, its extension starts at the last dot of its last segment, its
    directory ends before the last slash. *)
Fixpoint has_char (c : ascii) (s : string) : bool :=
  match s with
  | EmptyString => false
  | String c' t => Ascii.eqb c c' || has_char c t
  end.

Fixpoint posix_extname (s : string) : string :=
  match s with
  | EmptyString => EmptyString
  | String c t =>
      if Ascii.eqb c "." && negb (has_char "." t) && negb (has_char "/" t)
      then s
      else posix_extname t
  end.

Fixpoint posix_dirname (s : string) : string :=
  match s with
  | EmptyString => EmptyString
  | String c t => if has_char "/" t then String c (posix_dirname t) else EmptyString
  end.

(** A container whose image sets the working directory to [/app]. *)
Definition container (node_env db_path : option string) : Platform :=
  {| NODE_ENV := node_env;
     DB_PATH := db_path;
     cwd := "/app";
     homedir := "/root";
     tmpdir := "/tmp";
     isAbsolute := λ p, match p with String "/" _ => true | _ => false end;
     resolve := λ base p, base +:+ "/" +:+ p;
     extname := posix_extname;
     dirname := posix_dirname;
     join := String.concat "/" |}.

(** A file system on which exactly the directories of [dirs] can be created
    and written to, and a console that never throws. *)
Definition only_writable (dirs : list string) : World → Event → option JSError :=
  λ _ ev,
    match ev with
    | Mkdir dir | Access dir =>
        if bool_decide (dir ∈ dirs) then None
        else Some (network_error "EACCES: permission denied")
    | Print _ => None
    end.

End DbPath.

(** ** The token middleware of the user API ([server.js]) *)

Module Auth.

Import Effects.

(** [s.split(" ")]: the pieces between single spaces, empty pieces kept. *)
Fixpoint split_space (s : string) : list string :=
  match s with
  | EmptyString => [""]
  | String c rest =>
      if Ascii.eqb c " " then "" :: split_space rest
      else match split_space rest with
           | piece :: pieces => String c piece :: pieces
           | [] => [String c ""]
           end
  end.

(** A text without space. *)
Fixpoint spaceless (s : string) : Prop :=
  match s with
  | EmptyString => True
  | String c rest => c ≠ " "%char ∧ spaceless rest
  end.

(** The letter [c] in lower case when it is one of [A] to [Z]. *)
Definition lower (c : ascii) : ascii :=
  let n := nat_of_ascii c in
  if (65 <=? n)%nat && (n <=? 90)%nat then ascii_of_nat (n + 32) else c.

Fixpoint lowercase (s : string) : string :=
  match s with
  | EmptyString => EmptyString
  | String c rest => String (lower c) (lowercase rest)
  end.

(** [/^Bearer$/i.test(scheme)] *)
Definition is_bearer (scheme : string) : bool := String.eqb (lowercase scheme) "bearer".

(** [res.status(code).json(body)] and [req.user = user; next()]. *)
Inductive Event : Type :=
  | Reply (code : Z) (body : JSValue)
  | Next (user : JSValue).

Abbreviation World := (list Event).
Abbreviation M := (T Event).

(** [jwt_secret] is [process.env.JWT_SECRET]; [verify token secret] is what
    [jwt.verify] passes to its callback, an error or the decoded payload,
    [token] being [None] when it is [undefined]; [raises] says when the
    response object or [next] throws. *)
Record Env : Type := mkEnv {
  jwt_secret : option string;
  verify : option string → string → JSError + JSValue;
  raises : World → Event → option JSError
}.

Definition no_faults (E : Env) : Prop := ∀ h ev, raises E h ev = None.

Section Middleware.

Variable E : Env.

(** [const JWT_SECRET = process.env.JWT_SECRET || "replace_this_secret_in_prod"] *)
Definition JWT_SECRET : string :=
  match jwt_secret E with
  | Some s => if String.eqb s "" then "replace_this_secret_in_prod" else s
  | None => "replace_this_secret_in_prod"
  end.

Definition res_status_json (code : Z) (msg : string) : M unit :=
  perform (raises E) (Reply code (JObj [("error", JStr msg)])).

(** [authenticateToken(req, res, next)]; [authHeader] is
    [req.headers["authorization"]].  The array [split] returns has a first
    element, the scheme tested; the regular expression would test the text
    of [undefined] otherwise. *)
Definition authenticateToken (authHeader : option string) : M unit :=
  try_catch
    (match authHeader with
     | None => res_status_json 401 "Token ausente"
     | Some header =>
         if String.eqb header "" then res_status_json 401 "Token ausente"
         else
           let parts := split_space header in
           let scheme := parts !! 0%nat in
           let token := parts !! 1%nat in
           if negb (is_bearer (default "undefined" scheme)) then
             res_status_json 401 "Formato de token inválido"
           else
             match verify E token JWT_SECRET with
             | inl err => res_status_json 403 "Token inválido ou expirado"
             | inr user => perform (raises E) (Next user)
             end
     end)
    (λ e, res_status_json 500 "Erro na autenticação do token").

End Middleware.

(** *** Scenarios *)

(** [jwt.verify] decodes [payload] from the token [valid] and rejects every
    other token; the response object and [next] never throw. *)
Definition accepting (valid : string) (payload : JSValue) : Env :=
  {| jwt_secret := None;
     verify := λ token _,
       match token with
       | Some t => if String.eqb t valid then inr payload
                   else inl (network_error "invalid signature")
       | None => inl (network_error "jwt must be provided")
       end;
     raises := λ _ _, None |}.

End Auth.

(** ** Basic facts *)

Lemma posts_app (w1 w2 : World) : posts (w1 ++ w2) = posts w1 ++ posts w2.
Proof. apply omap_app. Qed.

Lemma delays_app (w1 w2 : World) : delays (w1 ++ w2) = delays w1 ++ delays w2.
Proof. apply omap_app. Qed.

Lemma replies_app (w1 w2 : World) : replies (w1 ++ w2) = replies w1 ++ replies w2.
Proof. apply omap_app. Qed.

Lemma outcomes_cons (E : Env) (cfg : Config) (k0 : nat) (p : JSValue) (rest : list JSValue) :
  outcomes E cfg k0 (p :: rest)
  = axios E k0 (request cfg p) :: outcomes E cfg (S k0) rest.
Proof.
  unfold outcomes. rewrite imap_cons. f_equal.
  - f_equal. lia.
  - apply imap_ext. intros i x _. simpl. f_equal. lia.
Qed.

Lemma bind_run {A B} (m : M A) (f : A → M B) (w : World) :
  (m ≫= f) w = match m w with
               | (Normal a, w') => f a w'
               | (Throw err, w') => (Throw err, w')
               end.
Proof. reflexivity. Qed.

Lemma ret_run {A} (a : A) (w : World) : (mret a : M A) w = (Normal a, w).
Proof. reflexivity. Qed.

Section Steps.

Variable E : Env.
Variable cfg : Config.
Hypothesis Hnf : no_faults E.

Lemma perform_ok (ev : Event) (w : World) :
  perform E ev w = (Normal tt, w ++ [ev]).
Proof. unfold perform. by rewrite Hnf. Qed.

Ltac run_effects :=
  repeat first [rewrite bind_run | rewrite perform_ok | rewrite ret_run].

Lemma posts_snoc_log (w : World) (l : LogLine) : posts (w ++ [Log l]) = posts w.
Proof. rewrite posts_app. simpl. apply app_nil_r. Qed.

(** An attempt that is accepted returns from the handler. *)
Lemma try_payload_accepted p results w resp :
  axios E (length (posts w)) (request cfg p) = Normal resp →
  try_payload E cfg p results w = (Normal None, w ++ accepted_events cfg p resp).
Proof.
  intros Hax. unfold try_payload, console_log, res_json, res_status_json.
  rewrite bind_run, perform_ok. unfold try_catch.
  rewrite bind_run. unfold axios_post at 1. rewrite posts_snoc_log, Hax.
  run_effects. by rewrite <- !app_assoc.
Qed.

(** A failed attempt that passes the abort guard answers and returns. *)
Lemma try_payload_aborted p results w err :
  axios E (length (posts w)) (request cfg p) = Throw err →
  non_recoverable (err_status err) = true →
  try_payload E cfg p results w
  = (Normal None, w ++ aborted_events cfg p err (results ++ [attempt p err])).
Proof.
  intros Hax Hab. unfold try_payload, console_log.
  rewrite bind_run, perform_ok. unfold try_catch.
  rewrite bind_run. unfold axios_post at 1. rewrite posts_snoc_log, Hax.
  unfold on_failure, console_log, res_status_json. rewrite Hab.
  run_effects. by rewrite <- !app_assoc.
Qed.

(** A failed attempt that does not pass the abort guard is recorded,
    followed by the delay, and the loop goes on. *)
Lemma try_payload_continued p results w err :
  axios E (length (posts w)) (request cfg p) = Throw err →
  non_recoverable (err_status err) = false →
  try_payload E cfg p results w
  = (Normal (Some (results ++ [attempt p err])), w ++ failed_events cfg p err).
Proof.
  intros Hax Hab. unfold try_payload, console_log.
  rewrite bind_run, perform_ok. unfold try_catch.
  rewrite bind_run. unfold axios_post at 1. rewrite posts_snoc_log, Hax.
  unfold on_failure, console_log, delay. rewrite Hab.
  run_effects. by rewrite <- !app_assoc.
Qed.

Lemma posts_failed_events p err : posts (failed_events cfg p err) = [request cfg p].
Proof. reflexivity. Qed.

Lemma posts_failures pre : ∀ errs k0,
  outcomes E cfg k0 pre = Throw <$> errs →
  posts (concat (zip_with (failed_events cfg) pre errs)) = request cfg <$> pre.
Proof.
  induction pre as [|p pre IH]; intros errs k0 Hout; [by destruct errs|].
  rewrite outcomes_cons in Hout.
  destruct errs as [|err errs]; [discriminate|]. injection Hout as _ Hout.
  simpl. f_equal. by apply (IH errs (S k0)).
Qed.

Lemma posts_prefix_length pre errs k0 :
  outcomes E cfg k0 pre = Throw <$> errs →
  length (posts (concat (zip_with (failed_events cfg) pre errs))) = length pre.
Proof. intros Hout. by rewrite (posts_failures pre errs k0), length_fmap. Qed.

(** A run of failed attempts none of which aborts: each is recorded and
    followed by the delay, and the loop reaches the rest of the list. *)
Lemma probe_loop_failures pre : ∀ errs rest results w,
  outcomes E cfg (length (posts w)) pre = Throw <$> errs →
  Forall continuable errs →
  probe_loop E cfg (pre ++ rest) results w
  = probe_loop E cfg rest (results ++ zip_with attempt pre errs)
      (w ++ concat (zip_with (failed_events cfg) pre errs)).
Proof.
  induction pre as [|p pre IH]; intros errs rest results w Hout Hcont.
  - destruct errs; [|discriminate]. simpl. by rewrite !app_nil_r.
  - rewrite outcomes_cons in Hout.
    destruct errs as [|err errs]; [discriminate|].
    injection Hout as Hax Hout. apply Forall_cons in Hcont as [Hc Hcont].
    simpl. rewrite bind_run, (try_payload_continued _ _ _ err) by done.
    rewrite (IH errs).
    + by rewrite <- !app_assoc.
    + rewrite posts_app, posts_failed_events, length_app. simpl.
      by replace (length (posts w) + 1)%nat with (S (length (posts w))) by lia.
    + done.
Qed.

(** The loop state after it ran off the end of the list. *)
Lemma probe_loop_exhausted cands errs results w :
  outcomes E cfg (length (posts w)) cands = Throw <$> errs →
  Forall continuable errs →
  probe_loop E cfg cands results w
  = (Normal (Some (results ++ zip_with attempt cands errs)),
     w ++ concat (zip_with (failed_events cfg) cands errs)).
Proof.
  intros Hout Hcont.
  rewrite <- (app_nil_r cands) at 1.
  by rewrite (probe_loop_failures cands errs).
Qed.

(** The loop state after the candidate that follows [pre] was accepted. *)
Lemma probe_loop_accepted pre p rest errs resp results w :
  outcomes E cfg (length (posts w)) pre = Throw <$> errs →
  Forall continuable errs →
  axios E (length (posts w) + length pre) (request cfg p) = Normal resp →
  probe_loop E cfg (pre ++ p :: rest) results w
  = (Normal None,
     w ++ concat (zip_with (failed_events cfg) pre errs) ++ accepted_events cfg p resp).
Proof.
  intros Hout Hcont Hax.
  rewrite (probe_loop_failures pre errs) by done.
  simpl. rewrite bind_run, (try_payload_accepted _ _ _ resp).
  - by rewrite <- app_assoc.
  - by rewrite posts_app, length_app, (posts_prefix_length pre errs (length (posts w))).
Qed.

(** The loop state after the candidate that follows [pre] aborted the run. *)
Lemma probe_loop_aborted pre p rest errs err results w :
  outcomes E cfg (length (posts w)) pre = Throw <$> errs →
  Forall continuable errs →
  axios E (length (posts w) + length pre) (request cfg p) = Throw err →
  non_recoverable (err_status err) = true →
  probe_loop E cfg (pre ++ p :: rest) results w
  = (Normal None,
     w ++ concat (zip_with (failed_events cfg) pre errs)
       ++ aborted_events cfg p err
            (results ++ zip_with attempt pre errs ++ [attempt p err])).
Proof.
  intros Hout Hcont Hax Hab.
  rewrite (probe_loop_failures pre errs) by done.
  simpl. rewrite bind_run, (try_payload_aborted _ _ _ err).
  - by rewrite <- !app_assoc.
  - by rewrite posts_app, length_app, (posts_prefix_length pre errs (length (posts w))).
  - done.
Qed.

(** The handler around the loop: a fresh invocation starts from the empty
    trace. *)
Lemma probe_returned cands w :
  probe_loop E cfg cands [] [Log LogReceived] = (Normal None, w) →
  probe E cfg cands [] = (Normal tt, w).
Proof.
  intros Hloop. unfold probe, console_log, try_catch.
  rewrite bind_run, perform_ok. simpl. by rewrite bind_run, Hloop.
Qed.

Lemma probe_fell_through cands results w :
  probe_loop E cfg cands [] [Log LogReceived] = (Normal (Some results), w) →
  probe E cfg cands []
  = (Normal tt, w ++ [Log LogNoneWorked; Reply 422 (exhausted_body results)]).
Proof.
  intros Hloop. unfold probe, console_log, res_status_json, try_catch.
  rewrite bind_run, perform_ok. simpl. rewrite bind_run, Hloop.
  run_effects. by rewrite <- app_assoc.
Qed.

(** Whatever the remote answers, the calls fall in one of three cases:
    some candidate is accepted after failures that do not abort, some
    candidate aborts after such failures, or all fail without aborting. *)
Lemma script_cases cands : ∀ k0,
  (∃ pre p rest errs resp,
      cands = pre ++ p :: rest
      ∧ outcomes E cfg k0 pre = Throw <$> errs ∧ Forall continuable errs
      ∧ axios E (k0 + length pre) (request cfg p) = Normal resp)
  ∨ (∃ pre p rest errs err,
      cands = pre ++ p :: rest
      ∧ outcomes E cfg k0 pre = Throw <$> errs ∧ Forall continuable errs
      ∧ axios E (k0 + length pre) (request cfg p) = Throw err
      ∧ non_recoverable (err_status err) = true)
  ∨ (∃ errs,
      outcomes E cfg k0 cands = Throw <$> errs ∧ Forall continuable errs).
Proof.
  induction cands as [|p cands IH]; intros k0.
  { right; right. by exists []. }
  destruct (axios E k0 (request cfg p)) as [resp|err] eqn:Hax.
  { left. exists [], p, cands, [], resp. simpl.
    by rewrite Nat.add_0_r. }
  destruct (non_recoverable (err_status err)) eqn:Hab.
  { right; left. exists [], p, cands, [], err. simpl.
    by rewrite Nat.add_0_r. }
  destruct (IH (S k0))
    as [(pre & q & rest & errs & resp & -> & Hout & Hcont & Hq)
       |[(pre & q & rest & errs & err' & -> & Hout & Hcont & Hq & Hab')
        |(errs & Hout & Hcont)]].
  - left. exists (p :: pre), q, rest, (err :: errs), resp.
    rewrite outcomes_cons, Hax, Hout. simpl length.
    rewrite Nat.add_succ_r. repeat split; [|done]. by constructor.
  - right; left. exists (p :: pre), q, rest, (err :: errs), err'.
    rewrite outcomes_cons, Hax, Hout. simpl length.
    rewrite Nat.add_succ_r. repeat split; [|done|done]. by constructor.
  - right; right. exists (err :: errs).
    rewrite outcomes_cons, Hax, Hout. split; [done|]. by constructor.
Qed.

End Steps.

(** ** Properties of the prober *)

Create HintDb probe.

Section Properties.

Variable E : Env.
Variable cfg : Config.

Lemma recoverable_continuable err : recoverable_failure err → continuable err.
Proof.
  intros (r & Hr & Hs). unfold continuable, non_recoverable, err_status.
  rewrite Hr. simpl. destruct Hs as [-> | ->]; reflexivity.
Qed.

Lemma no_response_continuable err : no_response err → continuable err.
Proof.
  unfold no_response, continuable, non_recoverable, err_status.
  by intros ->.
Qed.

Lemma outcomes_length k0 cands errs :
  outcomes E cfg k0 cands = Throw <$> errs → length errs = length cands.
Proof.
  intros Hout. apply (f_equal length) in Hout.
  unfold outcomes in Hout. by rewrite length_imap, length_fmap in Hout.
Qed.

Lemma delays_failures pre : ∀ errs,
  length errs = length pre →
  delays (concat (zip_with (failed_events cfg) pre errs)) = replicate (length pre) 300.
Proof.
  induction pre as [|p pre IH]; intros [|err errs] Hlen; try done.
  simpl. f_equal. apply IH. by injection Hlen.
Qed.

Lemma replies_failures pre : ∀ errs,
  replies (concat (zip_with (failed_events cfg) pre errs)) = [].
Proof.
  induction pre as [|p pre IH]; intros [|err errs]; try done.
  simpl. apply IH.
Qed.

Lemma exists_last_failure cands : ∀ errs,
  cands ≠ [] → length errs = length cands →
  ∃ evs, concat (zip_with (failed_events cfg) cands errs) = evs ++ [Delay 300].
Proof.
  induction cands as [|p cands IH]; intros [|err errs] Hne Hlen; try done.
  destruct cands as [|q cands].
  - destruct errs; [|done]. simpl.
    by exists [Log (LogTrying p); Post (request cfg p);
               Log (LogFailed p (err_status err) (err_data err))].
  - destruct (IH errs) as (evs & Hevs); [done | by injection Hlen |].
    exists (failed_events cfg p err ++ evs).
    change (zip_with (failed_events cfg) (p :: q :: cands) (err :: errs))
      with (failed_events cfg p err :: zip_with (failed_events cfg) (q :: cands) errs).
    rewrite concat_cons, Hevs. by rewrite app_assoc.
Qed.

(** C1.  When the [N]-th candidate (counting from 1) is accepted and every
    earlier candidate fails with a response whose status is 400 or 422,
    the handler answers once, with HTTP 200 and the body
    [{ok: true, usedPayload, response}] where [usedPayload] is the [N]-th
    candidate and [response] the body of the remote's response; it has
    awaited exactly [N - 1] delays and issued calls for the first [N]
    candidates only. *)
Theorem first_success (cands : list JSValue) (N : nat) (p : JSValue)
    (resp : HttpResponse) (errs : list JSError) :
  no_faults E →
  (0 < N)%nat →
  cands !! (N - 1)%nat = Some p →
  outcomes E cfg 0 (take (N - 1) cands) = Throw <$> errs →
  Forall recoverable_failure errs →
  axios E (N - 1) (request cfg p) = Normal resp →
  ∃ w, probe E cfg cands [] = (Normal tt, w)
       ∧ replies w
         = [(200, JObj [("ok", JBool true); ("usedPayload", p);
                        ("response", data resp)])]
       ∧ delays w = replicate (N - 1) 300
       ∧ posts w = request cfg <$> take N cands.
Proof.
  intros Hnf HN Hp Hout Hrec Hax.
  assert (Hcont : Forall continuable errs)
    by (eapply Forall_impl; [done | apply recoverable_continuable]).
  pose proof (outcomes_length _ _ _ Hout) as Hlen.
  pose proof (take_drop_middle _ _ _ Hp) as Hsplit.
  assert (Hpre : length (take (N - 1) cands) = (N - 1)%nat).
  { apply length_take_le. apply lookup_lt_Some in Hp. lia. }
  exists ([Log LogReceived]
          ++ concat (zip_with (failed_events cfg) (take (N - 1) cands) errs)
          ++ accepted_events cfg p resp).
  split; [|split; [|split]].
  - apply (probe_returned E cfg Hnf). rewrite <- Hsplit at 1.
    apply (probe_loop_accepted E cfg Hnf _ _ _ errs resp); [done..|].
    simpl. by rewrite Hpre.
  - rewrite !replies_app, replies_failures. reflexivity.
  - rewrite !delays_app, delays_failures by done. simpl.
    by rewrite Hpre, app_nil_r.
  - rewrite !posts_app, (posts_failures E cfg _ errs 0%nat) by done. simpl.
    replace N with (S (N - 1)) at 2 by lia.
    by rewrite (take_S_r _ _ _ Hp), fmap_app.
Qed.

(** What the abort guard accepts: a response with a status that is a
    number other than 0, 400 and 422. *)
Lemma non_recoverable_inv err :
  non_recoverable (err_status err) = true →
  ∃ r, response err = Some r
       ∧ status r ≠ 0 ∧ status r ≠ 400 ∧ status r ≠ 422
       ∧ status_code (err_status err) = status r
       ∧ err_data err = data r.
Proof.
  unfold non_recoverable, err_status, err_data.
  destruct (response err) as [r|]; [|discriminate].
  simpl. intros H. exists r.
  apply andb_true_iff in H as [H0 H].
  apply negb_true_iff, Z.eqb_neq in H0.
  apply negb_true_iff, orb_false_iff in H as [H422 H400].
  apply Z.eqb_neq in H422, H400. done.
Qed.

Lemma non_recoverable_intro err r :
  response err = Some r →
  status r ≠ 0 → status r ≠ 400 → status r ≠ 422 →
  non_recoverable (err_status err) = true.
Proof.
  unfold non_recoverable, err_status. intros -> H0 H400 H422. simpl.
  apply Z.eqb_neq in H0, H400, H422. by rewrite H0, H400, H422.
Qed.

(** Without faults a run is one of three: a candidate is accepted, a
    candidate aborts, or the list is exhausted; in each case the whole
    trace is known. *)
Lemma probe_cases (cands : list JSValue) :
  no_faults E →
  (∃ pre p rest errs resp,
      cands = pre ++ p :: rest
      ∧ outcomes E cfg 0 pre = Throw <$> errs ∧ Forall continuable errs
      ∧ axios E (length pre) (request cfg p) = Normal resp
      ∧ probe E cfg cands []
        = (Normal tt,
           [Log LogReceived] ++ concat (zip_with (failed_events cfg) pre errs)
             ++ accepted_events cfg p resp))
  ∨ (∃ pre p rest errs err,
      cands = pre ++ p :: rest
      ∧ outcomes E cfg 0 pre = Throw <$> errs ∧ Forall continuable errs
      ∧ axios E (length pre) (request cfg p) = Throw err
      ∧ non_recoverable (err_status err) = true
      ∧ probe E cfg cands []
        = (Normal tt,
           [Log LogReceived] ++ concat (zip_with (failed_events cfg) pre errs)
             ++ aborted_events cfg p err (zip_with attempt pre errs ++ [attempt p err])))
  ∨ (∃ errs,
      outcomes E cfg 0 cands = Throw <$> errs ∧ Forall continuable errs
      ∧ probe E cfg cands []
        = (Normal tt,
           ([Log LogReceived] ++ concat (zip_with (failed_events cfg) cands errs))
             ++ [Log LogNoneWorked;
                 Reply 422 (exhausted_body (zip_with attempt cands errs))])).
Proof.
  intros Hnf.
  destruct (script_cases E cfg cands 0)
    as [(pre & p & rest & errs & resp & -> & Hout & Hcont & Hp)
       |[(pre & p & rest & errs & err & -> & Hout & Hcont & Hp & Hab)
        |(errs & Hout & Hcont)]].
  - left. exists pre, p, rest, errs, resp. repeat split; try done.
    apply (probe_returned E cfg Hnf).
    by apply (probe_loop_accepted E cfg Hnf).
  - right; left. exists pre, p, rest, errs, err. repeat split; try done.
    apply (probe_returned E cfg Hnf).
    by apply (probe_loop_aborted E cfg Hnf pre p rest errs err []).
  - right; right. exists errs. repeat split; try done.
    apply (probe_fell_through E cfg Hnf).
    by apply (probe_loop_exhausted E cfg Hnf cands errs []).
Qed.


(** C3, as the code has it.  When the first candidate fails with a
    response whose status is a number other than 0, 400 and 422 (every
    HTTP status code other than 400 and 422 is), the handler aborts after
    that one attempt, whatever follows in the list: one outbound call, no
    delay, and one answer carrying the remote status with the body
    [{error, attempts}], where [attempts] holds the single record of that
    candidate and where [error] and the record's [data] are the remote
    body when it is truthy and the error's message otherwise. *)
Theorem abort_on_first (p : JSValue) (rest : list JSValue) (err : JSError)
    (r : HttpResponse) :
  no_faults E →
  axios E 0 (request cfg p) = Throw err →
  response err = Some r →
  status r ≠ 0 → status r ≠ 400 → status r ≠ 422 →
  ∃ w, probe E cfg (p :: rest) [] = (Normal tt, w)
       ∧ posts w = [request cfg p]
       ∧ delays w = []
       ∧ replies w
         = [(status r,
             JObj [("error", if truthy (data r) then data r else JStr (message err));
                   ("attempts",
                    JArr [JObj [("payload", p);
                                ("status", JNum (status r));
                                ("data", if truthy (data r) then data r
                                         else JStr (message err))]])])].
Proof.
  intros Hnf Hax Hr H0 H400 H422.
  pose proof (non_recoverable_intro err r Hr H0 H400 H422) as Hab.
  eexists. split; [|split; [|split]].
  - apply (probe_returned E cfg Hnf).
    by apply (probe_loop_aborted E cfg Hnf [] p rest [] err []).
  - reflexivity.
  - reflexivity.
  - simpl. unfold abort_body, attempt, err_status, err_data, js_or. rewrite Hr.
    simpl. apply Z.eqb_neq in H0. by rewrite H0.
Qed.

(** C4.  When every candidate fails with a response whose status is 400 or
    422, the handler answers once, with HTTP 422 and the body
    [{ok: false, message, attempts}]; [attempts] holds one record per
    candidate, in the order of the list. *)
Theorem exhausted_all_recoverable (cands : list JSValue) (errs : list JSError) :
  no_faults E →
  outcomes E cfg 0 cands = Throw <$> errs →
  Forall recoverable_failure errs →
  ∃ w attempts,
    probe E cfg cands [] = (Normal tt, w)
    ∧ replies w
      = [(422, JObj [("ok", JBool false); ("message", JStr exhausted_message);
                     ("attempts", JArr attempts)])]
    ∧ length attempts = length cands
    ∧ attempts = zip_with attempt cands errs.
Proof.
  intros Hnf Hout Hrec.
  assert (Hcont : Forall continuable errs)
    by (eapply Forall_impl; [done | apply recoverable_continuable]).
  pose proof (outcomes_length _ _ _ Hout) as Hlen.
  eexists. exists (zip_with attempt cands errs). split; [|split; [|split]].
  - apply (probe_fell_through E cfg Hnf).
    by apply (probe_loop_exhausted E cfg Hnf cands errs []).
  - rewrite !replies_app, replies_failures. reflexivity.
  - rewrite length_zip_with. lia.
  - done.
Qed.

(** C8.  Every failed attempt that does not abort, whether its response
    has status 400 or 422 or there is no response at all, is followed by
    the 300 ms delay, the last one included: when all [L] candidates fail
    this way the run awaits exactly [L] delays, and the last of them comes
    right before the run reports exhaustion with HTTP 422. *)
Theorem delay_after_every_failure (cands : list JSValue) (errs : list JSError) :
  no_faults E →
  outcomes E cfg 0 cands = Throw <$> errs →
  Forall (λ err, recoverable_failure err ∨ no_response err) errs →
  ∃ w, probe E cfg cands [] = (Normal tt, w)
       ∧ w = [Log LogReceived]
             ++ concat (zip_with (λ p err,
                          [Log (LogTrying p); Post (request cfg p);
                           Log (LogFailed p (err_status err) (err_data err));
                           Delay 300]) cands errs)
             ++ [Log LogNoneWorked;
                 Reply 422 (exhausted_body (zip_with attempt cands errs))]
       ∧ delays w = replicate (length cands) 300
       ∧ (cands ≠ [] →
          ∃ w0, w = w0 ++ [Delay 300; Log LogNoneWorked;
                           Reply 422 (exhausted_body (zip_with attempt cands errs))]).
Proof.
  intros Hnf Hout Hfail.
  assert (Hcont : Forall continuable errs).
  { eapply Forall_impl; [done|]. intros err [H|H].
    - by apply recoverable_continuable.
    - by apply no_response_continuable. }
  pose proof (outcomes_length _ _ _ Hout) as Hlen.
  eexists. split; [|split; [|split]].
  - apply (probe_fell_through E cfg Hnf).
    by apply (probe_loop_exhausted E cfg Hnf cands errs []).
  - by rewrite <- app_assoc.
  - rewrite !delays_app, delays_failures by done. simpl. by rewrite app_nil_r.
  - intros Hne.
    destruct (exists_last_failure cands errs Hne Hlen) as (evs & Hevs).
    exists ([Log LogReceived] ++ evs). simpl. rewrite Hevs.
    by rewrite <- !app_assoc.
Qed.

(** *** Any environment: a small program logic over traces *)

Lemma runs_ret {A} (a : A) (Q : Completion A → list Event → Prop) :
  Q (Normal a) [] → runs (mret a) Q.
Proof. intros HQ w. exists []. by rewrite app_nil_r. Qed.

Lemma runs_perform (ev : Event) (Q : Completion () → list Event → Prop) :
  (∀ err, faulted E → Q (Throw err) []) →
  Q (Normal tt) [ev] →
  runs (perform E ev) Q.
Proof.
  intros Hthrow Hok w. unfold perform.
  destruct (fault E w ev) as [err|] eqn:Hf.
  - exists []. rewrite app_nil_r. split; [done|].
    apply Hthrow. by exists w, ev, err.
  - by exists [ev].
Qed.

Lemma runs_bind {A B} (m : M A) (f : A → M B)
    (Q1 : Completion A → list Event → Prop)
    (Q : Completion B → list Event → Prop) :
  runs m Q1 →
  (∀ err evs1, Q1 (Throw err) evs1 → Q (Throw err) evs1) →
  (∀ a evs1, Q1 (Normal a) evs1 → runs (f a) (λ c evs2, Q c (evs1 ++ evs2))) →
  runs (m ≫= f) Q.
Proof.
  intros Hm Hthrow Hf w. rewrite bind_run.
  destruct (Hm w) as (evs1 & Hw1 & HQ1).
  destruct (m w) as [[a|err] w1]; simpl in *; subst w1.
  - destruct (Hf a evs1 HQ1 (w ++ evs1)) as (evs2 & Hw2 & HQ).
    exists (evs1 ++ evs2). by rewrite app_assoc.
  - exists evs1. split; [done|]. by apply Hthrow.
Qed.

Lemma runs_try_catch {A} (body : M A) (handler : JSError → M A)
    (Q1 Q : Completion A → list Event → Prop) :
  runs body Q1 →
  (∀ a evs1, Q1 (Normal a) evs1 → Q (Normal a) evs1) →
  (∀ err evs1, Q1 (Throw err) evs1 →
               runs (handler err) (λ c evs2, Q c (evs1 ++ evs2))) →
  runs (try_catch body handler) Q.
Proof.
  intros Hbody Hok Hh w. unfold try_catch.
  destruct (Hbody w) as (evs1 & Hw1 & HQ1).
  destruct (body w) as [[a|err] w1]; simpl in *; subst w1.
  - exists evs1. split; [done|]. by apply Hok.
  - destruct (Hh err evs1 HQ1 (w ++ evs1)) as (evs2 & Hw2 & HQ).
    exists (evs1 ++ evs2). by rewrite app_assoc.
Qed.

(** [perform ev;; k] *)
Lemma runs_perform_then {B} (ev : Event) (k : M B)
    (Q : Completion B → list Event → Prop) :
  (∀ err, faulted E → Q (Throw err) []) →
  runs k (λ c evs, Q c (ev :: evs)) →
  runs (perform E ev;; k) Q.
Proof.
  intros Hthrow Hk.
  apply (runs_bind _ _ (λ c evs, match c with
                                 | Normal _ => evs = [ev]
                                 | Throw _ => evs = [] ∧ faulted E
                                 end)).
  - by apply runs_perform.
  - intros err evs1 [-> Hf]. by apply Hthrow.
  - by intros [] evs1 ->.
Qed.

(** [resp ← axios_post req; k resp] *)
Lemma runs_axios_post_then {B} (req : Request) (k : HttpResponse → M B)
    (Q : Completion B → list Event → Prop) :
  (∀ err, Q (Throw err) [Post req]) →
  (∀ resp, runs (k resp) (λ c evs, Q c (Post req :: evs))) →
  runs (axios_post E req ≫= k) Q.
Proof.
  intros Hthrow Hk.
  apply (runs_bind _ _ (λ _ evs, evs = [Post req])).
  - intros w. by exists [Post req].
  - intros err evs1 ->. apply Hthrow.
  - intros resp evs1 ->. apply Hk.
Qed.

Lemma harmless_nil : harmless [].
Proof. by split; constructor. Qed.

Lemma harmless_app evs1 evs2 : harmless evs1 → harmless evs2 → harmless (evs1 ++ evs2).
Proof.
  intros [Hd1 Hr1] [Hd2 Hr2]. unfold harmless.
  rewrite delays_app, replies_app. split; by apply Forall_app.
Qed.

Lemma harmless_log l evs : harmless evs → harmless (Log l :: evs).
Proof. done. Qed.

Lemma harmless_post req evs : harmless evs → harmless (Post req :: evs).
Proof. done. Qed.

Lemma harmless_delay evs : harmless evs → harmless (Delay 300 :: evs).
Proof. intros [Hd Hr]. split; [by constructor | done]. Qed.

Lemma harmless_reply code body evs :
  ¬ internal_reply (code, body) → harmless evs → harmless (Reply code body :: evs).
Proof. intros Hni [Hd Hr]. split; [done | by constructor]. Qed.

Lemma abort_not_internal code err results :
  ¬ internal_reply (code, abort_body err results).
Proof. by intros [m Hm]. Qed.

Lemma success_not_internal p resp : ¬ internal_reply (200, success_body p resp).
Proof. by intros [m Hm]. Qed.

Lemma exhausted_not_internal results : ¬ internal_reply (422, exhausted_body results).
Proof. by intros [m Hm]. Qed.

#[local] Hint Resolve harmless_nil harmless_log harmless_post harmless_delay
  harmless_reply abort_not_internal success_not_internal
  exhausted_not_internal : probe.

Ltac post :=
  intros; cbn beta; rewrite ?app_nil_r;
  repeat match goal with |- _ ∧ _ => split end;
  simpl;
  try match goal with
      | Hp : ∃ n, posts _ = _ |- ∃ n, _ =>
          let n := fresh "n" in
          destruct Hp as [n Hp]; exists n;
          by rewrite ?posts_app, Hp, ?app_nil_r
      end;
  try (apply harmless_app; [assumption|]);
  auto 7 with probe; try done.

(** The [catch] block of an attempt issues no call, waits 300 ms at most,
    does not answer as the outer [catch] does, and raises only on a
    fault. *)
Lemma on_failure_general p results err :
  runs (on_failure E p results err)
    (λ c evs, posts evs = [] ∧ harmless evs ∧ only_faults_raise E c).
Proof.
  unfold on_failure, console_log, res_status_json, delay.
  apply runs_perform_then; [post|].
  destruct (non_recoverable (err_status err)).
  - apply runs_perform_then; [post|].
    apply runs_perform_then; [post|].
    apply runs_ret. post.
  - apply runs_perform_then; [post|].
    apply runs_ret. post.
Qed.

(** One iteration, faults included: at most the one call for its
    candidate, and exactly that call when it completes normally. *)
Lemma try_payload_general p results :
  runs (try_payload E cfg p results)
    (λ c evs, (posts evs = [request cfg p]
               ∨ (posts evs = [] ∧ ∃ err, c = Throw err))
              ∧ harmless evs ∧ only_faults_raise E c).
Proof.
  unfold try_payload, console_log, res_json, res_status_json.
  apply runs_perform_then; [post; right; eauto|].
  apply (runs_try_catch _ _
           (λ _ evs, posts evs = [request cfg p] ∧ harmless evs)).
  - apply runs_axios_post_then; [post|]. intros resp.
    apply runs_perform_then; [post|].
    apply runs_perform_then; [post|].
    apply runs_ret. post.
  - intros a evs1 [Hp Hh]. post.
  - intros err evs1 [Hp Hh] w.
    destruct (on_failure_general p results err w) as (evs2 & Hw & Hp2 & Hh2 & Hf).
    exists evs2. split; [done|]. simpl. rewrite posts_app, Hp, Hp2.
    split; [by left|]. split; [|done].
    apply harmless_log. by apply harmless_app.
Qed.

(** The loop, faults included: the calls issued are those for a prefix of
    the list, in order. *)
Lemma probe_loop_general cands : ∀ results,
  runs (probe_loop E cfg cands results)
    (λ c evs, (∃ n, posts evs = request cfg <$> take n cands)
              ∧ harmless evs ∧ only_faults_raise E c).
Proof.
  induction cands as [|p cands IH]; intros results.
  { apply runs_ret. post. by exists 0%nat. }
  simpl. eapply runs_bind; [apply try_payload_general|..].
  - intros err evs1 ([Hp|[Hp _]] & Hh & Hf); post.
    + by exists 1%nat.
    + by exists 0%nat.
  - intros [results'|] evs1 ([Hp|[_ [? ?]]] & Hh & Hf); try done.
    + intros w. destruct (IH results' w) as (evs2 & Hw & [n Hp2] & Hh2 & Hf2).
      exists evs2. split; [done|]. post.
      exists (S n). by rewrite posts_app, Hp, Hp2.
    + apply runs_ret. post. by exists 1%nat.
Qed.

(** The handler, faults included. *)
Lemma probe_general cands :
  runs (probe E cfg cands)
    (λ c evs, (∃ n, posts evs = request cfg <$> take n cands)
              ∧ Forall (λ ms, ms = 300) (delays evs)
              ∧ (∀ r, r ∈ replies evs → internal_reply r → faulted E)).
Proof.
  unfold probe, console_log, res_status_json.
  apply runs_perform_then.
  { post. by exists 0%nat. }
  apply (runs_try_catch _ _
           (λ c evs, (∃ n, posts evs = request cfg <$> take n cands)
                     ∧ harmless evs ∧ only_faults_raise E c)).
  - eapply runs_bind; [apply probe_loop_general|..].
    + intros err evs1 (Hp & Hh & Hf). post.
    + intros [results|] evs1 (Hp & Hh & Hf).
      * apply runs_perform_then; [post|].
        apply runs_perform; [post|].
        post.
      * apply runs_ret. post.
  - intros [] evs1 (Hp & [Hd Hr] & _). post.
    intros r Hin Hint. by apply (Forall_forall (λ r, ¬ internal_reply r) (replies evs1)) in Hin.
  - intros err evs1 (Hp & [Hd Hr] & Hf).
    apply runs_perform_then; [|apply runs_perform]; post.
    all: try (rewrite delays_app; simpl; by rewrite app_nil_r).
Qed.

Lemma runs_weaken {A} (m : M A) (Q Q' : Completion A → list Event → Prop) :
  runs m Q → (∀ c evs, Q c evs → Q' c evs) → runs m Q'.
Proof.
  intros Hm HQ w. destruct (Hm w) as (evs & Hw & Hc). exists evs. split; [done|].
  by apply HQ.
Qed.

(** The loop only appends to the trace. *)
Lemma probe_loop_extends cands results w :
  ∃ evs, (probe_loop E cfg cands results w).2 = w ++ evs.
Proof.
  destruct (probe_loop_general cands results w) as (evs & Hw & _). by exists evs.
Qed.

(** Once the line that announces a candidate went through, the call for
    that candidate is issued, whatever happens next. *)
Lemma next_call q rest results w :
  fault E w (Log (LogTrying q)) = None →
  ∃ evs, (probe_loop E cfg (q :: rest) results w).2
         = w ++ [Log (LogTrying q); Post (request cfg q)] ++ evs.
Proof.
  intros Hf.
  assert (Hbody : runs (try_catch
                          (resp ← axios_post E (request cfg q);
                           console_log E (LogAccepted q (status resp));;
                           res_json E (success_body q resp);;
                           mret None)
                          (on_failure E q results))
                    (λ _ evs, ∃ evs', evs = Post (request cfg q) :: evs')).
  { apply (runs_try_catch _ _ (λ _ evs, ∃ evs', evs = Post (request cfg q) :: evs')).
    - unfold console_log, res_json, res_status_json.
      apply runs_axios_post_then; [by eexists|]. intros resp.
      apply runs_perform_then; [by eexists|].
      apply runs_perform_then; [by eexists|].
      apply runs_ret. by eexists.
    - done.
    - intros err evs1 [evs' ->].
      apply (runs_weaken _ _ _ (on_failure_general q results err)).
      intros c evs _. by eexists. }
  cbn [probe_loop]. rewrite bind_run. unfold try_payload at 1.
  rewrite bind_run. unfold console_log at 1, perform at 1. rewrite Hf.
  destruct (Hbody (w ++ [Log (LogTrying q)])) as (evs1 & Hw1 & evs' & ->).
  destruct (try_catch _ _ (w ++ [Log (LogTrying q)])) as [[[results'|]|err] w1];
    simpl in Hw1; subst w1.
  - destruct (probe_loop_extends rest results'
                ((w ++ [Log (LogTrying q)]) ++ Post (request cfg q) :: evs'))
      as (evs2 & ->).
    exists (evs' ++ evs2). by rewrite <- !app_assoc.
  - exists evs'. rewrite ret_run. simpl. by rewrite <- !app_assoc.
  - exists evs'. simpl. by rewrite <- !app_assoc.
Qed.

Lemma continuable_tolerated err : continuable err → tolerated err.
Proof.
  unfold continuable, tolerated, non_recoverable, err_status.
  destruct (response err) as [r|]; [|by left]. simpl. intros H. right. exists r.
  split; [done|].
  destruct (status r =? 0) eqn:H0; [apply Z.eqb_eq in H0; by left|]. simpl in H.
  apply negb_false_iff, orb_true_iff in H as [H|H]; apply Z.eqb_eq in H; auto.
Qed.

(** *** What reaches the outer [catch] *)

Lemma raises_faults_ret {A} (a : A) : raises_faults E (mret a : M A).
Proof. intros w. split; [exists []; by rewrite app_nil_r | done]. Qed.

Lemma raises_faults_perform (ev : Event) :
  (∀ req, ev ≠ Post req) → raises_faults E (perform E ev).
Proof.
  intros Hev w. unfold perform. destruct (fault E w ev) as [e|] eqn:Hf; simpl.
  - split; [exists []; by rewrite app_nil_r|]. intros err [= <-]. by exists ev.
  - split; [by exists [ev] | done].
Qed.

Lemma raises_faults_bind {A B} (m : M A) (f : A → M B) :
  raises_faults E m → (∀ a, raises_faults E (f a)) → raises_faults E (m ≫= f).
Proof.
  intros Hm Hf w. rewrite bind_run.
  destruct (Hm w) as [[evs1 Hw1] Ht1].
  destruct (m w) as [[a|err] w1]; simpl in *; subst w1.
  - destruct (Hf a (w ++ evs1)) as [[evs2 Hw2] Ht2].
    split; [|done]. exists (evs1 ++ evs2). by rewrite Hw2, app_assoc.
  - split; [by exists evs1|]. intros err' [= <-]. by apply Ht1.
Qed.

(** What the body of a [try] raises is caught: only the handler counts. *)
Lemma raises_faults_try_catch {A} (body : M A) (handler : JSError → M A) :
  (∀ w, ∃ evs, (body w).2 = w ++ evs) →
  (∀ err, raises_faults E (handler err)) →
  raises_faults E (try_catch body handler).
Proof.
  intros Hbody Hh w. unfold try_catch.
  destruct (Hbody w) as [evs1 Hw1].
  destruct (body w) as [[a|err] w1]; simpl in *; subst w1.
  - split; [by exists evs1 | done].
  - destruct (Hh err (w ++ evs1)) as [[evs2 Hw2] Ht2].
    split; [|done]. exists (evs1 ++ evs2). by rewrite Hw2, app_assoc.
Qed.

Lemma on_failure_raises p results err : raises_faults E (on_failure E p results err).
Proof.
  unfold on_failure, console_log, res_status_json, delay.
  apply raises_faults_bind; [by apply raises_faults_perform|]. intros _.
  destruct (non_recoverable (err_status err)).
  - apply raises_faults_bind; [by apply raises_faults_perform|]. intros _.
    apply raises_faults_bind; [by apply raises_faults_perform|]. intros _.
    apply raises_faults_ret.
  - apply raises_faults_bind; [by apply raises_faults_perform|]. intros _.
    apply raises_faults_ret.
Qed.

(** A failed call is caught by the [catch] of its attempt: an attempt raises
    only what the console, the timer or the response object raised. *)
Lemma try_payload_raises p results : raises_faults E (try_payload E cfg p results).
Proof.
  unfold try_payload, console_log.
  apply raises_faults_bind; [by apply raises_faults_perform|]. intros _.
  apply raises_faults_try_catch; [|apply on_failure_raises].
  intros w.
  assert (Hruns : runs (resp ← axios_post E (request cfg p);
                        perform E (Log (LogAccepted p (status resp)));;
                        res_json E (success_body p resp);;
                        mret None)
                    (λ (_ : Completion (option (list JSValue))) _, True)).
  { unfold res_json, res_status_json.
    apply runs_axios_post_then; [done|]. intros resp.
    apply runs_perform_then; [done|].
    apply runs_perform_then; [done|].
    by apply runs_ret. }
  destruct (Hruns w) as (evs & Hw & _). by exists evs.
Qed.

Lemma probe_loop_raises cands : ∀ results, raises_faults E (probe_loop E cfg cands results).
Proof.
  induction cands as [|p cands IH]; intros results; [apply raises_faults_ret|].
  cbn [probe_loop]. apply raises_faults_bind; [apply try_payload_raises|].
  intros [results'|]; [apply IH | apply raises_faults_ret].
Qed.

(** The answers given inside the outer [try] are never [{error}] alone. *)
Lemma probe_body_harmless cands :
  runs (r ← probe_loop E cfg cands [];
        match r with
        | None => mret tt
        | Some results =>
            console_log E LogNoneWorked;;
            res_status_json E 422 (exhausted_body results)
        end)
    (λ _ evs, harmless evs).
Proof.
  unfold console_log, res_status_json.
  eapply runs_bind; [apply probe_loop_general|..].
  - by intros err evs1 (_ & Hh & _).
  - intros [results|] evs1 (_ & Hh & _).
    + apply runs_perform_then; [post|].
      apply runs_perform; post.
    + apply runs_ret. post.
Qed.

(** In any environment, an answer HTTP 500 with [{error}] alone is the
    answer of the outer [catch] to what the console, the timer or the
    response object raised earlier in the same run. *)
Lemma probe_internal cands r :
  r ∈ replies (probe E cfg cands []).2 →
  internal_reply r →
  ∃ h err, raised_at E h err
           ∧ h `prefix_of` (probe E cfg cands []).2
           ∧ r = (500, internal_body err).
Proof.
  remember (probe E cfg cands []) as res eqn:Hres. revert Hres.
  unfold probe. rewrite bind_run. unfold console_log at 1, perform at 1.
  destruct (fault E [] (Log LogReceived)) as [e|]; simpl.
  { intros -> Hin. by apply elem_of_nil in Hin. }
  set (body := r ← probe_loop E cfg cands []; _).
  assert (Hrf : raises_faults E body).
  { apply raises_faults_bind; [apply probe_loop_raises|].
    intros [results|]; [|apply raises_faults_ret].
    unfold console_log, res_status_json.
    apply raises_faults_bind; [by apply raises_faults_perform|]. intros _.
    by apply raises_faults_perform. }
  destruct (Hrf [Log LogReceived]) as [_ Hraised].
  destruct (probe_body_harmless cands [Log LogReceived]) as (evs & Hw & _ & Hni).
  fold body in Hw. unfold try_catch.
  assert (Hno : ∀ r, r ∈ replies evs → ¬ internal_reply r)
    by (by apply Forall_forall).
  destruct (body [Log LogReceived]) as [[[]|err] w2]; simpl in *; subst w2.
  { intros -> Hin Hint. by destruct (Hno r). }
  specialize (Hraised err eq_refl).
  rewrite bind_run. unfold console_log, res_status_json, perform.
  destruct (fault E _ (Log (LogInternal err))) as [e1|]; simpl.
  { intros -> Hin Hint. by destruct (Hno r). }
  destruct (fault E _ (Reply 500 (internal_body err))) as [e2|]; simpl.
  { intros -> Hin Hint. simpl in Hin. rewrite replies_app in Hin. simpl in Hin.
    rewrite app_nil_r in Hin. by destruct (Hno r). }
  intros -> Hin Hint. simpl in Hin. rewrite !replies_app in Hin. simpl in Hin.
  rewrite app_nil_r in Hin.
  apply elem_of_app in Hin as [Hin | ->%list_elem_of_singleton];
    [by destruct (Hno r)|].
  exists (Log LogReceived :: evs), err. split; [done|]. split; [|done].
  simpl. exists [Log (LogInternal err); Reply 500 (internal_body err)].
  by rewrite <- app_assoc.
Qed.

Lemma reply_of_inj o o' : reply_of o = reply_of o' → o = o'.
Proof. destruct o, o'; simpl; intros H; try discriminate; by simplify_eq. Qed.

(** C5.  Without faults every run completes normally with exactly one
    answer, the answer of exactly one of the three outcomes, and the
    outcome is decided by how the calls complete.  It is first-success
    when a call is accepted after failures that were all tolerated, with
    the accepted candidate and the body of its response; non-recoverable
    failure when a call fails with a response whose status is a number
    other than 0, 400 and 422 after such failures, with that status and
    the records of all the attempts; exhausted, the HTTP 422 answer with a
    record for every candidate, when the call for every candidate failed
    and was tolerated.  In each case the calls issued are those for the
    candidates up to the deciding one.  The answer HTTP 500 with a body
    [{error}] is never among them, however the outbound calls fail: in
    any environment it is given only after the console, the timer or the
    response object raised during the run, never an outbound call, and it
    carries the message of what was raised. *)
Theorem three_outcomes (cands : list JSValue) :
  (no_faults E →
   ∃ w o,
     probe E cfg cands [] = (Normal tt, w)
     ∧ replies w = [reply_of o]
     ∧ (∀ o', replies w = [reply_of o'] → o' = o)
     ∧ ¬ internal_reply (reply_of o)
     ∧ match o with
       | FirstSuccess p body =>
           ∃ pre rest errs resp,
             cands = pre ++ p :: rest
             ∧ outcomes E cfg 0 pre = Throw <$> errs
             ∧ Forall tolerated errs
             ∧ axios E (length pre) (request cfg p) = Normal resp
             ∧ body = data resp
             ∧ posts w = request cfg <$> (pre ++ [p])
       | NonRecoverable code error attempts =>
           ∃ pre p rest errs err r,
             cands = pre ++ p :: rest
             ∧ outcomes E cfg 0 pre = Throw <$> errs
             ∧ Forall tolerated errs
             ∧ axios E (length pre) (request cfg p) = Throw err
             ∧ response err = Some r ∧ status r = code
             ∧ code ≠ 0 ∧ code ≠ 400 ∧ code ≠ 422
             ∧ posts w = request cfg <$> (pre ++ [p])
             ∧ attempts = zip_with attempt pre errs ++ [attempt p err]
       | Exhausted attempts =>
           ∃ errs,
             outcomes E cfg 0 cands = Throw <$> errs
             ∧ Forall tolerated errs
             ∧ posts w = request cfg <$> cands
             ∧ attempts = zip_with attempt cands errs
       end)
  ∧ (∀ r, r ∈ replies (probe E cfg cands []).2 → internal_reply r →
       ∃ h err,
         raised_at E h err
         ∧ h `prefix_of` (probe E cfg cands []).2
         ∧ r = (500, JObj [("error", JStr (message err))])).
Proof.
  split; [|apply probe_internal].
  intros Hnf.
  destruct (probe_cases cands Hnf)
    as [(pre & p & rest & errs & resp & -> & Hout & Hcont & Hp & Hrun)
       |[(pre & p & rest & errs & err & -> & Hout & Hcont & Hp & Hab & Hrun)
        |(errs & Hout & Hcont & Hrun)]];
    rewrite Hrun; eexists;
    (assert (Htol : Forall tolerated errs)
       by (eapply Forall_impl; [done | apply continuable_tolerated])).
  - exists (FirstSuccess p (data resp)).
    assert (Hrep : replies ([Log LogReceived]
              ++ concat (zip_with (failed_events cfg) pre errs)
              ++ accepted_events cfg p resp)
            = [reply_of (FirstSuccess p (data resp))])
      by (by rewrite !replies_app, replies_failures).
    split; [done|]. split; [done|]. rewrite Hrep.
    split; [|split].
    + intros o' [= Ho']. symmetry. by apply reply_of_inj.
    + by intros [m Hm].
    + exists pre, rest, errs, resp. repeat split; try done.
      rewrite !posts_app, (posts_failures E cfg pre errs 0%nat) by done.
      by rewrite fmap_app.
  - destruct (non_recoverable_inv err Hab) as (r & Hr & H0 & H400 & H422 & Hcode & _).
    exists (NonRecoverable (status r)
              (js_or (err_data err) (JStr (message err)))
              (zip_with attempt pre errs ++ [attempt p err])).
    assert (Hrep : replies ([Log LogReceived]
              ++ concat (zip_with (failed_events cfg) pre errs)
              ++ aborted_events cfg p err (zip_with attempt pre errs ++ [attempt p err]))
            = [reply_of (NonRecoverable (status r)
                 (js_or (err_data err) (JStr (message err)))
                 (zip_with attempt pre errs ++ [attempt p err]))]).
    { rewrite !replies_app, replies_failures. simpl. by rewrite Hcode. }
    split; [done|]. split; [done|]. rewrite Hrep.
    split; [|split].
    + intros o' [= Ho']. symmetry. by apply reply_of_inj.
    + by intros [m Hm].
    + exists pre, p, rest, errs, err, r. repeat split; try done.
      rewrite !posts_app, (posts_failures E cfg pre errs 0%nat) by done.
      by rewrite fmap_app.
  - exists (Exhausted (zip_with attempt cands errs)).
    assert (Hrep : replies (([Log LogReceived]
              ++ concat (zip_with (failed_events cfg) cands errs))
              ++ [Log LogNoneWorked;
                  Reply 422 (exhausted_body (zip_with attempt cands errs))])
            = [reply_of (Exhausted (zip_with attempt cands errs))])
      by (by rewrite !replies_app, replies_failures).
    split; [done|]. split; [done|]. rewrite Hrep.
    split; [|split].
    + intros o' [= Ho']. symmetry. by apply reply_of_inj.
    + by intros [m Hm].
    + exists errs. repeat split; try done.
      rewrite !posts_app, (posts_failures E cfg cands errs 0%nat) by done.
      simpl. by rewrite app_nil_r.
Qed.


(** C7.  In any run the outbound calls are those for a prefix of the
    candidate list, in the order of the list and one per candidate; each is
    a POST to the fixed webhook URL with the candidate as body, the
    configured headers and a timeout of 10000 ms. *)
Theorem calls_follow_the_list (cands : list JSValue) :
  ∃ n,
    posts (probe E cfg cands []).2
    = (λ p, {| req_url := "https://areadocliente.liguelead.com.br/api/crm/webhook/f914ed2e-30d3-4c5a-b4a4-6fe7ea1223d3";
               req_body := p;
               req_headers := headers cfg;
               req_timeout := 10000 |}) <$> take n cands.
Proof.
  destruct (probe_general cands []) as (evs & Hw & [n Hp] & _).
  exists n. by rewrite Hw.
Qed.

(** C9.  When a call fails with a response, the record of the attempt and,
    under the abort guard, the [error] field of the answer both carry
    [data || err.message]: the error's message when the body of the
    response is falsy (the empty string, [null] and an absent body are),
    the body itself when it is truthy. *)
Theorem falsy_body_falls_back (p : JSValue) (rest results : list JSValue)
    (w : World) (err : JSError) (r : HttpResponse) :
  no_faults E →
  axios E (length (posts w)) (request cfg p) = Throw err →
  response err = Some r →
  let st := js_or (JNum (status r)) (JStr "no-response") in
  let tried := [Log (LogTrying p); Post (request cfg p);
                Log (LogFailed p (JNum (status r)) (data r))] in
  (truthy (JStr "") = false ∧ truthy JNull = false ∧ truthy JUndefined = false)
  ∧ (truthy (data r) = false →
     (non_recoverable (JNum (status r)) = false →
      probe_loop E cfg (p :: rest) results w
      = probe_loop E cfg rest
          (results ++ [JObj [("payload", p); ("status", st);
                             ("data", JStr (message err))]])
          (w ++ tried ++ [Delay 300]))
     ∧ (non_recoverable (JNum (status r)) = true →
        probe_loop E cfg (p :: rest) results w
        = (Normal None,
           w ++ tried
             ++ [Log LogAborting;
                 Reply (status r)
                   (JObj [("error", JStr (message err));
                          ("attempts",
                           JArr (results
                                 ++ [JObj [("payload", p); ("status", st);
                                           ("data", JStr (message err))]]))])])))
  ∧ (truthy (data r) = true →
     (non_recoverable (JNum (status r)) = false →
      probe_loop E cfg (p :: rest) results w
      = probe_loop E cfg rest
          (results ++ [JObj [("payload", p); ("status", st); ("data", data r)]])
          (w ++ tried ++ [Delay 300]))
     ∧ (non_recoverable (JNum (status r)) = true →
        probe_loop E cfg (p :: rest) results w
        = (Normal None,
           w ++ tried
             ++ [Log LogAborting;
                 Reply (status r)
                   (JObj [("error", data r);
                          ("attempts",
                           JArr (results
                                 ++ [JObj [("payload", p); ("status", st);
                                           ("data", data r)]]))])]))).
Proof.
  intros Hnf Hax Hr st tried.
  assert (Hst : err_status err = JNum (status r)) by (unfold err_status; by rewrite Hr).
  assert (Hdat : err_data err = data r) by (unfold err_data; by rewrite Hr).
  split; [done|].
  split; intros Htruthy; split; intros Hguard.
  all: cbn [probe_loop]; rewrite bind_run.
  all: first
    [ rewrite (try_payload_continued E cfg Hnf _ _ _ err) by (done || by rewrite Hst)
    | rewrite (try_payload_aborted E cfg Hnf _ _ _ err) by (done || by rewrite Hst) ].
  all: unfold failed_events, aborted_events, abort_body, attempt, js_or, tried, st.
  all: rewrite Hst, Hdat, Htruthy; try done.
  all: unfold js_or; simpl; by destruct (negb (status r =? 0)).
Qed.

(** C10, as the code has it.  The fixed list has 15 candidates and its last
    two are the empty object.  When the first 14 calls fail without passing
    the abort guard, the run issues 15 calls and the 14th and the 15th both
    carry [{}]. *)
Theorem empty_object_sent_twice (errs : list JSError) :
  no_faults E →
  outcomes E cfg 0 (take 14 candidates) = Throw <$> errs →
  Forall continuable errs →
  length candidates = 15%nat
  ∧ candidates !! 13%nat = Some (JObj [])
  ∧ candidates !! 14%nat = Some (JObj [])
  ∧ length (posts (flow_start E cfg []).2) = 15%nat
  ∧ posts (flow_start E cfg []).2 !! 13%nat = Some (request cfg (JObj []))
  ∧ posts (flow_start E cfg []).2 !! 14%nat = Some (request cfg (JObj [])).
Proof.
  intros Hnf Hout Hcont.
  split; [done|]. split; [done|]. split; [done|].
  assert (Hposts : posts (flow_start E cfg []).2 = request cfg <$> candidates).
  { pose proof (posts_failures E cfg _ errs 0%nat Hout) as Hpre.
    unfold flow_start.
    change candidates with (take 14 candidates ++ [JObj []]) at 1.
    destruct (axios E 14 (request cfg (JObj []))) as [resp|err] eqn:Hax;
      [|destruct (non_recoverable (err_status err)) eqn:Hab].
    - rewrite (probe_returned E cfg Hnf _ _
                 (probe_loop_accepted E cfg Hnf _ _ _ errs resp [] [Log LogReceived]
                    Hout Hcont Hax)).
      cbn [snd]. by rewrite !posts_app, Hpre.
    - rewrite (probe_returned E cfg Hnf _ _
                 (probe_loop_aborted E cfg Hnf _ _ _ errs err [] [Log LogReceived]
                    Hout Hcont Hax Hab)).
      cbn [snd]. by rewrite !posts_app, Hpre.
    - assert (Hloop := probe_loop_failures E cfg Hnf (take 14 candidates) errs
                         [JObj []] [] [Log LogReceived] Hout Hcont).
      cbn [probe_loop] in Hloop. rewrite bind_run in Hloop.
      rewrite (try_payload_continued E cfg Hnf _ _ _ err) in Hloop.
      + rewrite (probe_fell_through E cfg Hnf _ _ _ Hloop).
        cbn [snd]. by rewrite !posts_app, Hpre.
      + by rewrite posts_app, length_app, Hpre.
      + done. }
  rewrite Hposts. done.
Qed.

End Properties.

(** ** The scenarios of the specification *)

Lemma quiet_no_faults (ax : nat → Request → Completion HttpResponse) :
  no_faults {| axios := ax; fault := quiet |}.
Proof. by intros h ev. Qed.

Lemma error_422_recoverable : recoverable_failure error_422.
Proof. exists {| status := 422; data := JObj [("error", JStr "invalid")] |}. by split; [|right]. Qed.

(** 422 for [{event: "iniciar_flow"}], then 200 with [{queued: true}] for
    [{action: "iniciar_flow"}]. *)
Example scenario_422_then_200 :
  ∃ w, probe env_422_then_200 cfg0 two_candidates [] = (Normal tt, w)
       ∧ replies w
         = [(200, JObj [("ok", JBool true);
                        ("usedPayload", JObj [("action", JStr "iniciar_flow")]);
                        ("response", JObj [("queued", JBool true)])])]
       ∧ delays w = [300].
Proof. eexists. by repeat split. Qed.

(** 503 for [{event: "iniciar_flow"}], with a body. *)
Example scenario_503 :
  ∃ w, probe (env_503 (JStr "Service Unavailable")) cfg0 one_candidate []
       = (Normal tt, w)
       ∧ replies w
         = [(503, JObj [("error", JStr "Service Unavailable");
                        ("attempts",
                         JArr [JObj [("payload", JObj [("event", JStr "iniciar_flow")]);
                                     ("status", JNum 503);
                                     ("data", JStr "Service Unavailable")]])])].
Proof. eexists. by repeat split. Qed.

(** The fixed list against a webhook that answers 422 to everything. *)
Example scenario_flow_start_exhausted :
  length (posts (flow_start env_always_422 cfg0 []).2) = 15%nat
  ∧ delays (flow_start env_always_422 cfg0 []).2 = replicate 15 300
  ∧ (fst <$> replies (flow_start env_always_422 cfg0 []).2) = [422].
Proof. by vm_compute. Qed.

(** A console that throws outside the inner [try] reaches the outer
    [catch]: the answer is HTTP 500 with [{error}]. *)
Example scenario_internal_fault :
  replies (probe env_console_breaks cfg0 two_candidates []).2
  = [(500, JObj [("error", JStr "write EPIPE")])].
Proof. reflexivity. Qed.

(** A throw inside the inner [try], after the call was accepted, lands in
    the inner [catch] like a failed call without response: the loop goes on
    and the next candidate is the one reported. *)
Example scenario_answer_fault :
  replies (probe env_first_answer_breaks cfg0 two_candidates []).2
  = [(200, JObj [("ok", JBool true);
                 ("usedPayload", JObj [("action", JStr "iniciar_flow")]);
                 ("response", JObj [("queued", JBool true)])])]
  ∧ delays (probe env_first_answer_breaks cfg0 two_candidates []).2 = [300].
Proof. by vm_compute. Qed.

Lemma first_success_witness :
  ∃ w, probe env_422_then_200 cfg0 two_candidates [] = (Normal tt, w)
       ∧ replies w
         = [(200, JObj [("ok", JBool true);
                        ("usedPayload", JObj [("action", JStr "iniciar_flow")]);
                        ("response", data queued)])]
       ∧ delays w = replicate (2 - 1) 300
       ∧ posts w = request cfg0 <$> take 2 two_candidates.
Proof.
  apply (first_success env_422_then_200 cfg0 two_candidates 2
           (JObj [("action", JStr "iniciar_flow")]) queued [error_422]).
  - apply quiet_no_faults.
  - lia.
  - reflexivity.
  - reflexivity.
  - constructor; [apply error_422_recoverable | constructor].
  - reflexivity.
Defined.


(** C3 as stated fails when the remote answers 503 with an empty body: the
    [error] field and the record's [data] are then the error's message, not
    the remote body. *)
Lemma abort_on_first_counterexample :
  axios (env_503 (JStr "")) 0 (request cfg0 (JObj [("event", JStr "iniciar_flow")]))
  = Throw (status_error 503 (JStr "") "Request failed with status code 503")
  ∧ replies (probe (env_503 (JStr "")) cfg0 one_candidate []).2
    = [(503, JObj [("error", JStr "Request failed with status code 503");
                   ("attempts",
                    JArr [JObj [("payload", JObj [("event", JStr "iniciar_flow")]);
                                ("status", JNum 503);
                                ("data", JStr "Request failed with status code 503")]])])]
  ∧ replies (probe (env_503 (JStr "")) cfg0 one_candidate []).2
    ≠ [(503, JObj [("error", JStr "");
                   ("attempts",
                    JArr [JObj [("payload", JObj [("event", JStr "iniciar_flow")]);
                                ("status", JNum 503);
                                ("data", JStr "")]])])].
Proof. split; [reflexivity|]. split; [reflexivity|]. by vm_compute. Qed.

Lemma abort_on_first_witness :
  ∃ w, probe (env_503 (JStr "Service Unavailable")) cfg0
         (JObj [("event", JStr "iniciar_flow")] :: two_candidates) []
       = (Normal tt, w)
       ∧ posts w = [request cfg0 (JObj [("event", JStr "iniciar_flow")])]
       ∧ delays w = []
       ∧ replies w
         = [(503,
             JObj [("error", JStr "Service Unavailable");
                   ("attempts",
                    JArr [JObj [("payload", JObj [("event", JStr "iniciar_flow")]);
                                ("status", JNum 503);
                                ("data", JStr "Service Unavailable")]])])].
Proof.
  apply (abort_on_first (env_503 (JStr "Service Unavailable")) cfg0
           (JObj [("event", JStr "iniciar_flow")]) two_candidates
           (status_error 503 (JStr "Service Unavailable")
              "Request failed with status code 503")
           {| status := 503; data := JStr "Service Unavailable" |}).
  - apply quiet_no_faults.
  - reflexivity.
  - reflexivity.
  - simpl. lia.
  - simpl. lia.
  - simpl. lia.
Defined.

Lemma exhausted_all_recoverable_witness :
  ∃ w attempts,
    probe env_always_422 cfg0 two_candidates [] = (Normal tt, w)
    ∧ replies w
      = [(422, JObj [("ok", JBool false); ("message", JStr exhausted_message);
                     ("attempts", JArr attempts)])]
    ∧ length attempts = length two_candidates
    ∧ attempts = zip_with attempt two_candidates [error_422; error_422].
Proof.
  apply (exhausted_all_recoverable env_always_422 cfg0 two_candidates
           [error_422; error_422]).
  - apply quiet_no_faults.
  - reflexivity.
  - repeat constructor; apply error_422_recoverable.
Defined.

Lemma three_outcomes_witness :
  (∃ w o,
     probe env_always_422 cfg0 two_candidates [] = (Normal tt, w)
     ∧ replies w = [reply_of o]
     ∧ (∀ o', replies w = [reply_of o'] → o' = o)
     ∧ ¬ internal_reply (reply_of o)
     ∧ match o with
       | FirstSuccess p body =>
           ∃ pre rest errs resp,
             two_candidates = pre ++ p :: rest
             ∧ outcomes env_always_422 cfg0 0 pre = Throw <$> errs
             ∧ Forall tolerated errs
             ∧ axios env_always_422 (length pre) (request cfg0 p) = Normal resp
             ∧ body = data resp
             ∧ posts w = request cfg0 <$> (pre ++ [p])
       | NonRecoverable code error attempts =>
           ∃ pre p rest errs err r,
             two_candidates = pre ++ p :: rest
             ∧ outcomes env_always_422 cfg0 0 pre = Throw <$> errs
             ∧ Forall tolerated errs
             ∧ axios env_always_422 (length pre) (request cfg0 p) = Throw err
             ∧ response err = Some r ∧ status r = code
             ∧ code ≠ 0 ∧ code ≠ 400 ∧ code ≠ 422
             ∧ posts w = request cfg0 <$> (pre ++ [p])
             ∧ attempts = zip_with attempt pre errs ++ [attempt p err]
       | Exhausted attempts =>
           ∃ errs,
             outcomes env_always_422 cfg0 0 two_candidates = Throw <$> errs
             ∧ Forall tolerated errs
             ∧ posts w = request cfg0 <$> two_candidates
             ∧ attempts = zip_with attempt two_candidates errs
       end)
  ∧ ∃ h err,
      raised_at env_console_breaks h err
      ∧ h `prefix_of` (probe env_console_breaks cfg0 two_candidates []).2
      ∧ (500, JObj [("error", JStr "write EPIPE")])
        = (500, JObj [("error", JStr (message err))]).
Proof.
  split.
  - apply (three_outcomes env_always_422 cfg0 two_candidates).
    apply quiet_no_faults.
  - apply (three_outcomes env_console_breaks cfg0 two_candidates).
    + apply list_elem_of_In. left. reflexivity.
    + by eexists.
Defined.


Lemma delay_after_every_failure_witness :
  ∃ w, probe env_422_then_down cfg0 two_candidates [] = (Normal tt, w)
       ∧ delays w = [300; 300]
       ∧ ∃ w0, w = w0 ++ [Delay 300; Log LogNoneWorked;
                          Reply 422
                            (exhausted_body
                               (zip_with attempt two_candidates
                                  [error_422; network_error "timeout of 10000ms exceeded"]))].
Proof.
  destruct (delay_after_every_failure env_422_then_down cfg0 two_candidates
              [error_422; network_error "timeout of 10000ms exceeded"])
    as (w & Hrun & _ & Hdelays & Hlast).
  - apply quiet_no_faults.
  - reflexivity.
  - constructor; [left; apply error_422_recoverable|].
    constructor; [by right | constructor].
  - exists w. split; [exact Hrun|]. split; [exact Hdelays|].
    apply Hlast. discriminate.
Defined.

Lemma falsy_body_falls_back_witness :
  probe_loop (env_503 (JStr "")) cfg0 one_candidate [] []
  = (Normal None,
     [Log (LogTrying (JObj [("event", JStr "iniciar_flow")]));
      Post (request cfg0 (JObj [("event", JStr "iniciar_flow")]));
      Log (LogFailed (JObj [("event", JStr "iniciar_flow")]) (JNum 503) (JStr ""));
      Log LogAborting;
      Reply 503
        (JObj [("error", JStr "Request failed with status code 503");
               ("attempts",
                JArr [JObj [("payload", JObj [("event", JStr "iniciar_flow")]);
                            ("status", JNum 503);
                            ("data", JStr "Request failed with status code 503")]])])]).
Proof.
  destruct (falsy_body_falls_back (env_503 (JStr "")) cfg0
              (JObj [("event", JStr "iniciar_flow")]) [] [] []
              (status_error 503 (JStr "") "Request failed with status code 503")
              {| status := 503; data := JStr "" |})
    as (_ & Hfalsy & _).
  - apply quiet_no_faults.
  - reflexivity.
  - reflexivity.
  - destruct (Hfalsy eq_refl) as [_ Habort]. apply (Habort eq_refl).
Defined.

(** C10 as stated fails when the 14th call is accepted: the first 13 calls
    fail with 422 and do not abort, yet there is no 15th call. *)
Lemma empty_object_sent_twice_counterexample :
  no_faults (env_422_until 13)
  ∧ outcomes (env_422_until 13) cfg0 0 (take 13 candidates)
    = Throw <$> replicate 13 error_422
  ∧ Forall recoverable_failure (replicate 13 error_422)
  ∧ posts (flow_start (env_422_until 13) cfg0 []).2 !! 13%nat
    = Some (request cfg0 (JObj []))
  ∧ posts (flow_start (env_422_until 13) cfg0 []).2 !! 14%nat = None.
Proof.
  split; [apply quiet_no_faults|]. split; [reflexivity|].
  split; [repeat constructor; apply error_422_recoverable|].
  split; by vm_compute.
Qed.

Lemma empty_object_sent_twice_witness :
  length candidates = 15%nat
  ∧ candidates !! 13%nat = Some (JObj [])
  ∧ candidates !! 14%nat = Some (JObj [])
  ∧ length (posts (flow_start env_always_422 cfg0 []).2) = 15%nat
  ∧ posts (flow_start env_always_422 cfg0 []).2 !! 13%nat
    = Some (request cfg0 (JObj []))
  ∧ posts (flow_start env_always_422 cfg0 []).2 !! 14%nat
    = Some (request cfg0 (JObj [])).
Proof.
  apply (empty_object_sent_twice env_always_422 cfg0 (replicate 14 error_422)).
  - apply quiet_no_faults.
  - reflexivity.
  - repeat constructor; apply recoverable_continuable, error_422_recoverable.
Defined.

(** ** More on the prober *)

Section ProberBounds.

Variable E : Env.
Variable cfg : Config.

Ltac bound :=
  intros; cbn beta; unfold paced in *;
  repeat match goal with H : _ ∧ _ |- _ => destruct H end;
  simpl in *; rewrite ?posts_app, ?delays_app, ?replies_app, ?length_app in *;
  simpl in *;
  repeat match goal with
         | H : replies _ = [] |- _ => rewrite H in *; clear H
         | H : posts _ = [] |- _ => rewrite H in *; clear H
         | H : delays _ = [] |- _ => rewrite H in *; clear H
         end;
  simpl in *;
  repeat match goal with |- _ ∧ _ => split end; try lia; try done.

Lemma on_failure_paced p results err :
  runs (on_failure E p results err)
    (λ c evs, posts evs = []
              ∧ (length (delays evs) ≤ 1)%nat
              ∧ match c with
                | Normal None => (length (replies evs) ≤ 1)%nat ∧ delays evs = []
                | _ => replies evs = []
                end).
Proof.
  unfold on_failure, console_log, res_status_json, delay.
  apply runs_perform_then; [bound|].
  destruct (non_recoverable (err_status err)).
  - apply runs_perform_then; [bound|].
    apply runs_perform_then; [bound|].
    apply runs_ret. bound.
  - apply runs_perform_then; [bound|].
    apply runs_ret. bound.
Qed.

Lemma try_payload_paced p results : runs (try_payload E cfg p results) paced.
Proof.
  unfold try_payload, console_log, res_json, res_status_json.
  apply runs_perform_then; [bound|].
  apply (runs_try_catch _ _
           (λ c evs, length (posts evs) = 1%nat ∧ delays evs = []
                     ∧ match c with
                       | Normal None => (length (replies evs) ≤ 1)%nat
                       | _ => replies evs = []
                       end)).
  - apply runs_axios_post_then; [bound|]. intros resp.
    apply runs_perform_then; [bound|].
    apply runs_perform_then; [bound|].
    apply runs_ret. bound.
  - intros [?|] evs1 (Hp & Hd & Hr); bound.
  - intros err evs1 (Hp & Hd & Hr) w.
    destruct (on_failure_paced p results err w) as (evs2 & Hw & Hp2 & Hd2 & Hr2).
    exists evs2. split; [done|].
    destruct (on_failure E p results err w).1 as [[?|]|]; bound.
Qed.

Lemma probe_loop_paced cands : ∀ results, runs (probe_loop E cfg cands results) paced.
Proof.
  induction cands as [|p cands IH]; intros results.
  { apply runs_ret. bound. }
  simpl. eapply runs_bind; [apply try_payload_paced|..].
  - bound.
  - intros [results'|] evs1 [Hd Hr].
    + intros w. destruct (IH results' w) as (evs2 & Hw & Hd2 & Hr2).
      exists evs2. split; [done|].
      destruct (probe_loop E cfg cands results' w).1 as [[?|]|]; bound.
    + apply runs_ret. bound.
Qed.

Lemma probe_paced cands :
  runs (probe E cfg cands)
    (λ _ evs, (length (delays evs) ≤ length (posts evs))%nat
              ∧ (length (replies evs) ≤ 1)%nat).
Proof.
  unfold probe, console_log, res_status_json.
  apply runs_perform_then; [bound|].
  apply (runs_try_catch _ _
           (λ c evs, (length (delays evs) ≤ length (posts evs))%nat
                     ∧ match c with
                       | Normal _ => (length (replies evs) ≤ 1)%nat
                       | Throw _ => replies evs = []
                       end)).
  - eapply runs_bind; [apply probe_loop_paced|..].
    + bound.
    + intros [results|] evs1 [Hd Hr].
      * apply runs_perform_then; [bound|].
        apply runs_perform; bound.
      * apply runs_ret. bound.
  - bound.
  - intros err evs1 [Hd Hr].
    apply runs_perform_then; [bound|].
    apply runs_perform; bound.
Qed.

(** X1.  In any environment one invocation answers at most once, calls the
    webhook at most once per candidate, and awaits at most one delay of
    300 ms per call made: for the 15 fixed candidates, at most 15 calls and
    4.5 s of delays. *)
Theorem prober_is_bounded (cands : list JSValue) :
  (length (replies (probe E cfg cands []).2) ≤ 1)%nat
  ∧ (length (posts (probe E cfg cands []).2) ≤ length cands)%nat
  ∧ foldr Z.add 0 (delays (probe E cfg cands []).2)
    ≤ 300 * Z.of_nat (length (posts (probe E cfg cands []).2))
  ∧ (length (posts (flow_start E cfg []).2) ≤ 15)%nat
  ∧ foldr Z.add 0 (delays (flow_start E cfg []).2) ≤ 4500.
Proof.
  assert (Hsum : ∀ ds : list Z, Forall (λ ms, ms = 300) ds →
                   foldr Z.add 0 ds = 300 * Z.of_nat (length ds)).
  { induction 1 as [|d ds -> _ IH]; simpl; lia. }
  assert (Hgen : ∀ cs,
            (length (replies (probe E cfg cs []).2) ≤ 1)%nat
            ∧ (length (posts (probe E cfg cs []).2) ≤ length cs)%nat
            ∧ foldr Z.add 0 (delays (probe E cfg cs []).2)
              ≤ 300 * Z.of_nat (length (posts (probe E cfg cs []).2))).
  { intros cs.
    destruct (probe_paced cs []) as (evs & Hw & Hd & Hr).
    destruct (probe_general E cfg cs []) as (evs' & Hw' & [n Hp] & Hall & _).
    rewrite Hw in Hw'. simpl in Hw'. subst evs'. rewrite Hw. simpl.
    split; [done|]. split.
    - rewrite Hp, length_fmap, length_take. lia.
    - rewrite (Hsum _ Hall). lia. }
  destruct (Hgen cands) as (Hr & Hp & Hd).
  destruct (Hgen candidates) as (_ & Hp15 & Hd15).
  repeat split; try done.
  unfold flow_start. simpl length in Hp15. lia.
Qed.

End ProberBounds.

Section ProberRuns.

Variable E : Env.
Variable cfg : Config.

(** X3.  The run is decided by the first call that is accepted or passes the
    abort guard.  When a call fails with a response whose status is a
    number other than 0, 400 and 422 after failures that did not abort, the
    handler answers with that status, [attempts] lists every candidate
    tried so far, the aborting one last, and one delay was awaited per
    earlier failure; no later candidate is tried. *)
Theorem abort_after_failures (pre : list JSValue) (p : JSValue)
    (rest : list JSValue) (errs : list JSError) (err : JSError) (r : HttpResponse) :
  no_faults E →
  outcomes E cfg 0 pre = Throw <$> errs →
  Forall (λ e, recoverable_failure e ∨ no_response e) errs →
  axios E (length pre) (request cfg p) = Throw err →
  response err = Some r →
  status r ≠ 0 → status r ≠ 400 → status r ≠ 422 →
  ∃ w, probe E cfg (pre ++ p :: rest) [] = (Normal tt, w)
       ∧ posts w = request cfg <$> (pre ++ [p])
       ∧ delays w = replicate (length pre) 300
       ∧ replies w
         = [(status r,
             JObj [("error", if truthy (data r) then data r else JStr (message err));
                   ("attempts", JArr (zip_with attempt pre errs ++ [attempt p err]))])].
Proof.
  intros Hnf Hout Hfail Hax Hr H0 H400 H422.
  assert (Hcont : Forall continuable errs).
  { eapply Forall_impl; [done|]. intros e [H|H].
    - by apply recoverable_continuable.
    - by apply no_response_continuable. }
  pose proof (non_recoverable_intro err r Hr H0 H400 H422) as Hab.
  pose proof (outcomes_length E cfg _ _ _ Hout) as Hlen.
  eexists. split; [|split; [|split]].
  - apply (probe_returned E cfg Hnf).
    by apply (probe_loop_aborted E cfg Hnf pre p rest errs err []).
  - rewrite !posts_app, (posts_failures E cfg _ errs 0%nat) by done.
    by rewrite fmap_app.
  - rewrite !delays_app, delays_failures by done. simpl. by rewrite app_nil_r.
  - rewrite !replies_app, replies_failures. simpl.
    unfold abort_body, err_status, err_data, js_or. by rewrite Hr.
Qed.

(** X4.  The same for acceptance: after any mix of failures with status 400 or
    422 and failures without response, the first accepted candidate is the
    one reported, with one delay per failure before it. *)
Theorem first_success_after_any_failures (pre : list JSValue) (p : JSValue)
    (rest : list JSValue) (errs : list JSError) (resp : HttpResponse) :
  no_faults E →
  outcomes E cfg 0 pre = Throw <$> errs →
  Forall (λ e, recoverable_failure e ∨ no_response e) errs →
  axios E (length pre) (request cfg p) = Normal resp →
  ∃ w, probe E cfg (pre ++ p :: rest) [] = (Normal tt, w)
       ∧ posts w = request cfg <$> (pre ++ [p])
       ∧ delays w = replicate (length pre) 300
       ∧ replies w
         = [(200, JObj [("ok", JBool true); ("usedPayload", p);
                        ("response", data resp)])].
Proof.
  intros Hnf Hout Hfail Hax.
  assert (Hcont : Forall continuable errs).
  { eapply Forall_impl; [done|]. intros e [H|H].
    - by apply recoverable_continuable.
    - by apply no_response_continuable. }
  pose proof (outcomes_length E cfg _ _ _ Hout) as Hlen.
  eexists. split; [|split; [|split]].
  - apply (probe_returned E cfg Hnf).
    by apply (probe_loop_accepted E cfg Hnf pre p rest errs resp []).
  - rewrite !posts_app, (posts_failures E cfg _ errs 0%nat) by done.
    by rewrite fmap_app.
  - rewrite !delays_app, delays_failures by done. simpl. by rewrite app_nil_r.
  - by rewrite !replies_app, replies_failures.
Qed.

(** X5.  The inner [try] also covers the log line and the answer that
    follow an accepted call.  When the response object throws on that
    answer, the attempt logs a failure, pushes a record with the status
    ["no-response"] and the message of what was thrown, and awaits the
    delay; the loop goes on, and the next candidate, once announced, is
    sent to the webhook although the call before it was accepted. *)
Theorem fault_after_acceptance_is_retried (p : JSValue) (results : list JSValue)
    (w : World) (resp : HttpResponse) (err : JSError) :
  let w1 := w ++ [Log (LogTrying p); Post (request cfg p);
                  Log (LogAccepted p (status resp))] in
  let w2 := w1 ++ [Log (LogFailed p JUndefined JUndefined); Delay 300] in
  let record := JObj [("payload", p); ("status", JStr "no-response");
                      ("data", JStr (message err))] in
  fault E w (Log (LogTrying p)) = None →
  axios E (length (posts w)) (request cfg p) = Normal resp →
  fault E (w ++ [Log (LogTrying p); Post (request cfg p)])
    (Log (LogAccepted p (status resp))) = None →
  fault E w1 (Reply 200 (success_body p resp)) = Some err →
  response err = None →
  fault E w1 (Log (LogFailed p JUndefined JUndefined)) = None →
  fault E (w1 ++ [Log (LogFailed p JUndefined JUndefined)]) (Delay 300) = None →
  try_payload E cfg p results w = (Normal (Some (results ++ [record])), w2)
  ∧ (∀ rest, probe_loop E cfg (p :: rest) results w
             = probe_loop E cfg rest (results ++ [record]) w2)
  ∧ (∀ q rest,
       fault E w2 (Log (LogTrying q)) = None →
       ∃ evs, (probe_loop E cfg (p :: q :: rest) results w).2
              = w2 ++ [Log (LogTrying q); Post (request cfg q)] ++ evs).
Proof.
  intros w1 w2 record Hf1 Hax Hf2 Hf3 Hr Hf4 Hf5. subst w1 w2 record.
  assert (Hok : ∀ ev h, fault E h ev = None → perform E ev h = (Normal tt, h ++ [ev]))
    by (intros ev h H; unfold perform; by rewrite H).
  assert (Hst : err_status err = JUndefined) by (unfold err_status; by rewrite Hr).
  assert (Hdat : err_data err = JUndefined) by (unfold err_data; by rewrite Hr).
  assert (Hstep : try_payload E cfg p results w
    = (Normal (Some (results ++ [JObj [("payload", p); ("status", JStr "no-response");
                                       ("data", JStr (message err))]])),
       (w ++ [Log (LogTrying p); Post (request cfg p);
              Log (LogAccepted p (status resp))])
         ++ [Log (LogFailed p JUndefined JUndefined); Delay 300])).
  { unfold try_payload, console_log, res_json, res_status_json, try_catch.
    rewrite bind_run, (Hok _ _ Hf1).
    rewrite bind_run. unfold axios_post at 1. rewrite posts_snoc_log, Hax.
    rewrite <- app_assoc. simpl ([_] ++ [_]).
    rewrite bind_run, (Hok _ _ Hf2).
    rewrite <- app_assoc. simpl ([_; _] ++ [_]).
    rewrite bind_run. unfold perform at 1. rewrite Hf3.
    unfold on_failure, console_log, delay. rewrite Hst, Hdat.
    change (non_recoverable JUndefined) with false. cbn iota.
    rewrite bind_run, (Hok _ _ Hf4).
    rewrite bind_run, (Hok _ _ Hf5).
    rewrite ret_run. unfold attempt, js_or. rewrite Hst, Hdat. simpl.
    by rewrite <- !app_assoc. }
  assert (Hloop : ∀ rest, probe_loop E cfg (p :: rest) results w
    = probe_loop E cfg rest
        (results ++ [JObj [("payload", p); ("status", JStr "no-response");
                           ("data", JStr (message err))]])
        ((w ++ [Log (LogTrying p); Post (request cfg p);
                Log (LogAccepted p (status resp))])
           ++ [Log (LogFailed p JUndefined JUndefined); Delay 300])).
  { intros rest. cbn [probe_loop]. by rewrite bind_run, Hstep. }
  split; [done|]. split; [done|].
  intros q rest Hq. rewrite Hloop. by apply next_call.
Qed.

(** X6.  The records of an exhausted run show only the statuses 400, 422 and
    ["no-response"]: a call with any other status would have ended the run
    with another answer. *)
Theorem exhausted_attempts_statuses (cands attempts : list JSValue) (w : World)
    (c : Completion ()) (m : JSValue) :
  no_faults E →
  probe E cfg cands [] = (c, w) →
  (422, JObj [("ok", JBool false); ("message", m); ("attempts", JArr attempts)])
  ∈ replies w →
  length attempts = length cands
  ∧ Forall (λ a, ∃ p st d,
              a = JObj [("payload", p); ("status", st); ("data", d)]
              ∧ (st = JNum 400 ∨ st = JNum 422 ∨ st = JStr "no-response"))
      attempts.
Proof.
  intros Hnf Hrun Hin.
  destruct (probe_cases E cfg cands Hnf)
    as [(pre & p & rest & errs & resp & -> & Hout & Hcont & Hp & Hrun')
       |[(pre & p & rest & errs & err & -> & Hout & Hcont & Hp & Hab & Hrun')
        |(errs & Hout & Hcont & Hrun')]];
    rewrite Hrun' in Hrun; apply (f_equal snd) in Hrun; cbn [snd] in Hrun; subst w;
    rewrite !replies_app, replies_failures in Hin; simpl in Hin;
    apply list_elem_of_singleton in Hin; try discriminate.
  injection Hin as _ ->.
  pose proof (outcomes_length E cfg _ _ _ Hout) as Hlen.
  split; [rewrite length_zip_with; lia|].
  clear Hout Hrun'. revert errs Hcont Hlen.
  induction cands as [|p cands IH]; intros [|err errs] Hcont Hlen; try done.
  apply Forall_cons in Hcont as [Hc Hcont].
  cbn [zip_with]. constructor; [|apply IH; [done | by injection Hlen]].
  exists p, (js_or (err_status err) (JStr "no-response")),
         (js_or (err_data err) (JStr (message err))).
  split; [done|].
  unfold continuable, non_recoverable, err_status in *.
  destruct (response err) as [r|]; [|by right; right].
  unfold js_or. simpl in *.
  destruct (status r =? 0) eqn:H0; simpl in *; [by right; right|].
  apply negb_false_iff, orb_true_iff in Hc as [H|H]; apply Z.eqb_eq in H; rewrite H; auto.
Qed.

End ProberRuns.

(** *** Scenarios *)

Lemma abort_after_failures_witness :
  ∃ w, probe env_422_then_503 cfg0 two_candidates [] = (Normal tt, w)
       ∧ posts w = request cfg0 <$> two_candidates
       ∧ delays w = [300]
       ∧ replies w
         = [(503,
             JObj [("error", JStr "maintenance");
                   ("attempts",
                    JArr [attempt (JObj [("event", JStr "iniciar_flow")]) error_422;
                          attempt (JObj [("action", JStr "iniciar_flow")])
                            (status_error 503 (JStr "maintenance")
                               "Request failed with status code 503")])])].
Proof.
  apply (abort_after_failures env_422_then_503 cfg0
           [JObj [("event", JStr "iniciar_flow")]]
           (JObj [("action", JStr "iniciar_flow")]) [] [error_422]
           (status_error 503 (JStr "maintenance") "Request failed with status code 503")
           {| status := 503; data := JStr "maintenance" |}).
  - by intros h ev.
  - reflexivity.
  - constructor; [|constructor]. left. exists {| status := 422; data := JObj [("error", JStr "invalid")] |}.
    split; [reflexivity|]. right. reflexivity.
  - reflexivity.
  - reflexivity.
  - discriminate.
  - discriminate.
  - discriminate.
Defined.

Lemma first_success_after_any_failures_witness :
  ∃ w, probe env_down_then_200 cfg0 two_candidates [] = (Normal tt, w)
       ∧ posts w = request cfg0 <$> two_candidates
       ∧ delays w = [300]
       ∧ replies w
         = [(200, JObj [("ok", JBool true);
                        ("usedPayload", JObj [("action", JStr "iniciar_flow")]);
                        ("response", JObj [("queued", JBool true)])])].
Proof.
  apply (first_success_after_any_failures env_down_then_200 cfg0
           [JObj [("event", JStr "iniciar_flow")]]
           (JObj [("action", JStr "iniciar_flow")]) []
           [network_error "connect ECONNREFUSED"] queued).
  - by intros h ev.
  - reflexivity.
  - constructor; [|constructor]. right. reflexivity.
  - reflexivity.
Defined.

Lemma fault_after_acceptance_is_retried_witness :
  try_payload env_first_answer_breaks cfg0 (JObj [("event", JStr "iniciar_flow")]) [] []
  = (Normal (Some [JObj [("payload", JObj [("event", JStr "iniciar_flow")]);
                         ("status", JStr "no-response");
                         ("data", JStr "Converting circular structure to JSON")]]),
     [Log (LogTrying (JObj [("event", JStr "iniciar_flow")]));
      Post (request cfg0 (JObj [("event", JStr "iniciar_flow")]));
      Log (LogAccepted (JObj [("event", JStr "iniciar_flow")]) 200)]
       ++ [Log (LogFailed (JObj [("event", JStr "iniciar_flow")]) JUndefined JUndefined);
           Delay 300])
  ∧ ∃ evs,
      (probe_loop env_first_answer_breaks cfg0 two_candidates [] []).2
      = ([Log (LogTrying (JObj [("event", JStr "iniciar_flow")]));
          Post (request cfg0 (JObj [("event", JStr "iniciar_flow")]));
          Log (LogAccepted (JObj [("event", JStr "iniciar_flow")]) 200)]
           ++ [Log (LogFailed (JObj [("event", JStr "iniciar_flow")])
                      JUndefined JUndefined);
               Delay 300])
        ++ [Log (LogTrying (JObj [("action", JStr "iniciar_flow")]));
            Post (request cfg0 (JObj [("action", JStr "iniciar_flow")]))] ++ evs.
Proof.
  destruct (fault_after_acceptance_is_retried env_first_answer_breaks cfg0
              (JObj [("event", JStr "iniciar_flow")]) [] [] queued
              (network_error "Converting circular structure to JSON"))
    as (Htry & _ & Hnext); try reflexivity.
  split; [exact Htry|].
  apply (Hnext (JObj [("action", JStr "iniciar_flow")]) []). reflexivity.
Defined.

Lemma exhausted_attempts_statuses_witness :
  length [attempt (JObj [("event", JStr "iniciar_flow")]) error_422;
          attempt (JObj [("action", JStr "iniciar_flow")]) error_422]
  = length two_candidates
  ∧ Forall (λ a, ∃ p st d,
              a = JObj [("payload", p); ("status", st); ("data", d)]
              ∧ (st = JNum 400 ∨ st = JNum 422 ∨ st = JStr "no-response"))
      [attempt (JObj [("event", JStr "iniciar_flow")]) error_422;
       attempt (JObj [("action", JStr "iniciar_flow")]) error_422].
Proof.
  apply (exhausted_attempts_statuses env_always_422 cfg0 two_candidates _
           (probe env_always_422 cfg0 two_candidates []).2
           (probe env_always_422 cfg0 two_candidates []).1
           (JStr exhausted_message)).
  - by intros h ev.
  - by destruct (probe env_always_422 cfg0 two_candidates []).
  - apply list_elem_of_In. left. reflexivity.
Defined.

(** ** Reasoning on traces of effects *)

Module EffectsFacts.

Import Effects.

Section WithEvents.

Context {Ev : Type}.

Lemma eff_bind_run {A B} (m : T Ev A) (f : A → T Ev B) (w : list Ev) :
  (m ≫= f) w = match m w with
               | (Normal a, w') => f a w'
               | (Throw err, w') => (Throw err, w')
               end.
Proof. reflexivity. Qed.

Lemma eff_ret_run {A} (a : A) (w : list Ev) : (mret a : T Ev A) w = (Normal a, w).
Proof. reflexivity. Qed.

Lemma eff_try_catch_run {A} (body : T Ev A) (handler : JSError → T Ev A) (w : list Ev) :
  try_catch body handler w
  = match body w with
    | (Normal a, w') => (Normal a, w')
    | (Throw err, w') => handler err w'
    end.
Proof. reflexivity. Qed.

Lemma eff_perform_quiet raises (ev : Ev) (w : list Ev) :
  (∀ h e, raises h e = None) →
  perform raises ev w = (Normal tt, w ++ [ev]).
Proof. intros Hq. unfold perform. by rewrite Hq. Qed.

Lemma eff_runs_ret {A} (a : A) (Q : Completion A → list Ev → Prop) :
  Q (Normal a) [] → runs (mret a) Q.
Proof. intros HQ w. exists []. by rewrite app_nil_r. Qed.

Lemma eff_runs_throw {A} (err : JSError) (Q : Completion A → list Ev → Prop) :
  Q (Throw err) [] → runs (throw err) Q.
Proof. intros HQ w. exists []. by rewrite app_nil_r. Qed.

Lemma eff_runs_bind {A B} (m : T Ev A) (f : A → T Ev B)
    (Q1 : Completion A → list Ev → Prop) (Q : Completion B → list Ev → Prop) :
  runs m Q1 →
  (∀ err evs1, Q1 (Throw err) evs1 → Q (Throw err) evs1) →
  (∀ a evs1, Q1 (Normal a) evs1 → runs (f a) (λ c evs2, Q c (evs1 ++ evs2))) →
  runs (m ≫= f) Q.
Proof.
  intros Hm Hthrow Hf w. rewrite eff_bind_run.
  destruct (Hm w) as (evs1 & Hw1 & HQ1).
  destruct (m w) as [[a|err] w1]; simpl in *; subst w1.
  - destruct (Hf a evs1 HQ1 (w ++ evs1)) as (evs2 & Hw2 & HQ).
    exists (evs1 ++ evs2). by rewrite app_assoc.
  - exists evs1. split; [done|]. by apply Hthrow.
Qed.

Lemma eff_runs_try_catch {A} (body : T Ev A) (handler : JSError → T Ev A)
    (Q1 Q : Completion A → list Ev → Prop) :
  runs body Q1 →
  (∀ a evs1, Q1 (Normal a) evs1 → Q (Normal a) evs1) →
  (∀ err evs1, Q1 (Throw err) evs1 →
               runs (handler err) (λ c evs2, Q c (evs1 ++ evs2))) →
  runs (try_catch body handler) Q.
Proof.
  intros Hbody Hok Hh w. unfold try_catch.
  destruct (Hbody w) as (evs1 & Hw1 & HQ1).
  destruct (body w) as [[a|err] w1]; simpl in *; subst w1.
  - exists evs1. split; [done|]. by apply Hok.
  - destruct (Hh err evs1 HQ1 (w ++ evs1)) as (evs2 & Hw2 & HQ).
    exists (evs1 ++ evs2). by rewrite app_assoc.
Qed.

(** An effect that raises leaves no event; one that does not leaves itself. *)
Lemma eff_runs_perform raises (ev : Ev) (Q : Completion () → list Ev → Prop) :
  (∀ err, Q (Throw err) []) →
  Q (Normal tt) [ev] →
  runs (perform raises ev) Q.
Proof.
  intros Hthrow Hok w. unfold perform.
  destruct (raises w ev) as [err|].
  - exists []. simpl. rewrite app_nil_r. split; [done | apply Hthrow].
  - by exists [ev].
Qed.

(** [perform ev;; k] *)
Lemma eff_runs_perform_then {B} raises (ev : Ev) (k : T Ev B)
    (Q : Completion B → list Ev → Prop) :
  (∀ err, Q (Throw err) []) →
  runs k (λ c evs, Q c (ev :: evs)) →
  runs (perform raises ev;; k) Q.
Proof.
  intros Hthrow Hk.
  apply (eff_runs_bind _ _ (λ c evs, match c with
                                 | Normal _ => evs = [ev]
                                 | Throw _ => evs = []
                                 end)).
  - by apply eff_runs_perform.
  - intros err evs1 ->. apply Hthrow.
  - by intros [] evs1 ->.
Qed.

End WithEvents.

End EffectsFacts.

(** ** Properties of the other handlers of the gateway *)

Module GatewayFacts.

Import Effects EffectsFacts Gateway.

Section Handlers.

Variable E : Env.
Variable cfg : Config.

Lemma gw_perform_ok (Hnf : no_faults E) (ev : Event) (w : World) :
  perform (fault E) ev w = (Normal tt, w ++ [ev]).
Proof. by apply eff_perform_quiet. Qed.

Lemma axios_call_run (call : Call) (w : World) :
  axios_call E call w = (axios E (length (calls w)) call, w ++ [Called call]).
Proof. reflexivity. Qed.

Ltac run Hnf :=
  repeat first
    [ rewrite eff_bind_run | rewrite eff_try_catch_run | rewrite (gw_perform_ok Hnf)
    | rewrite eff_ret_run | rewrite axios_call_run
    | progress unfold console_log, res_json, res_status_json, process_error
    | progress simpl (length (calls _)) | progress simpl (_ ++ _) ].

Ltac finish := eexists; split; [reflexivity|]; repeat split; reflexivity.

(** X7.  [/audios] issues one call and relays its outcome: the body of a
    response with HTTP 200, the status and the body of a failed response as
    they are, and HTTP 500 with the error's message where there is no
    response. *)
Theorem audios_relays :
  no_faults E →
  let call := AxiosGet "https://api.liguelead.com.br/v1/audio"
                [("api-token", apiToken cfg); ("app-id", appId cfg)] None in
  ∃ w, get_audios E cfg [] = (Normal tt, w)
       ∧ calls w = [call]
       ∧ replies w = [relayed (axios E 0 call)].
Proof.
  intros Hnf call. subst call. unfold get_audios, credentials. run Hnf.
  destruct (axios E 0 _) as [resp|err]; [|simpl; destruct (response err) as [r|]].
  all: run Hnf; finish.
Qed.

(** X8.  [/voice] answers 400 without calling the provider when [title] or
    [audio_id] is falsy or [phones] is not an array with an element. *)
Theorem voice_rejects_invalid (body : JSValue) :
  no_faults E →
  body ≠ JUndefined → body ≠ JNull →
  truthy (field body "title") = false
  ∨ truthy (field body "audio_id") = false
  ∨ (∀ x xs, field body "phones" ≠ JArr (x :: xs)) →
  post_voice E cfg body []
  = (Normal tt,
     [Log LVoiceReceived; Log LInvalidParams;
      Reply 400 (JObj [("error", JStr "Parâmetros obrigatórios ausentes ou inválidos.")])]).
Proof.
  intros Hnf Hu Hn Hbad. unfold post_voice. run Hnf.
  assert (Hd : ∀ k, destructure E body k = mret (field body k))
    by (intros k; by destruct body).
  rewrite !Hd. run Hnf.
  assert (Hinvalid : negb (truthy (field body "title"))
                     || negb (truthy (field body "audio_id"))
                     || negb (truthy (field body "phones"))
                     || negb (is_array (field body "phones"))
                     || length_is_zero (field body "phones") = true).
  { destruct Hbad as [->| [->|Hph]]; [done | by rewrite orb_true_r |].
    destruct (field body "phones") as [| | | | |[|x xs]|]; simpl;
      rewrite ?orb_true_r; try done.
    by destruct (Hph x xs). }
  rewrite Hinvalid. by run Hnf.
Qed.

(** X9.  A valid [/voice] request issues one call, a POST of
    [{title, audio_id, phones}] with the credentials, and relays its
    outcome like [/audios]. *)
Theorem voice_relays (body x : JSValue) (xs : list JSValue) :
  no_faults E →
  body ≠ JUndefined → body ≠ JNull →
  truthy (field body "title") = true →
  truthy (field body "audio_id") = true →
  field body "phones" = JArr (x :: xs) →
  let call := AxiosPost "https://api.liguelead.com.br/v1/voice"
                (JObj [("title", field body "title");
                       ("audio_id", field body "audio_id");
                       ("phones", JArr (x :: xs))])
                [("api-token", apiToken cfg); ("app-id", appId cfg);
                 ("Content-Type", "application/json")] in
  ∃ w, post_voice E cfg body [] = (Normal tt, w)
       ∧ calls w = [call]
       ∧ replies w = [relayed (axios E 0 call)].
Proof.
  intros Hnf Hu Hn Ht Ha Hp call. subst call. unfold post_voice, credentials.
  run Hnf.
  assert (Hd : ∀ k, destructure E body k = mret (field body k))
    by (intros k; by destruct body).
  rewrite !Hd. run Hnf. rewrite Ht, Ha, Hp. cbn [truthy is_array length_is_zero negb orb].
  run Hnf.
  destruct (axios E 0 _) as [resp|err]; [|simpl; destruct (response err) as [r|]].
  all: run Hnf; try finish.
  destruct (_ && _); run Hnf; finish.
Qed.

(** X10.  [/audio/:id] never relays what the provider answered to a failed call:
    a 404 becomes HTTP 404 with a fixed message, and every other failure,
    with or without response, becomes HTTP 500 with the error's message. *)
Theorem audio_by_id_outcomes (id : string) :
  no_faults E →
  let call := AxiosGet ("https://api.liguelead.com.br/v1/audio/" +:+ id)
                [("api-token", apiToken cfg); ("app-id", appId cfg)] None in
  ∃ w, get_audio E cfg id [] = (Normal tt, w)
       ∧ calls w = [call]
       ∧ (∀ resp, axios E 0 call = Normal resp → replies w = [(200, data resp)])
       ∧ (∀ err r, axios E 0 call = Throw err → response err = Some r →
            status r = 404 →
            replies w = [(404, JObj [("error", JStr "Áudio não encontrado.")])])
       ∧ (∀ err, axios E 0 call = Throw err →
            (∀ r, response err = Some r → status r ≠ 404) →
            replies w = [(500, JObj [("error", JStr (message err))])]).
Proof.
  intros Hnf call. subst call. unfold get_audio, credentials. run Hnf.
  destruct (axios E 0 _) as [resp|err]; [|simpl; destruct (is_404 err) eqn:H404].
  all: run Hnf; eexists; split; [reflexivity|]; split; [reflexivity|].
  all: repeat split; try done.
  - by intros resp' [= ->].
  - intros err' [= <-] Hne. exfalso. unfold is_404 in H404.
    destruct (response err) as [r|]; [|done].
    apply Z.eqb_eq in H404. by apply (Hne r).
  - intros err' r [= <-] Hr Hs. unfold is_404 in H404.
    rewrite Hr in H404. by apply Z.eqb_neq in H404.
  - by intros err' [= <-] _.
Qed.

Lemma params_spec (page per_page : JSValue) (k : string) (v : JSValue) :
  (k, v) ∈ (if truthy page then [("page", page)] else [])
           ++ (if truthy per_page then [("per_page", per_page)] else [])
  ↔ (k = "page" ∧ v = page ∧ truthy page = true)
    ∨ (k = "per_page" ∧ v = per_page ∧ truthy per_page = true).
Proof.
  rewrite elem_of_app.
  destruct (truthy page), (truthy per_page);
    rewrite ?list_elem_of_singleton, ?elem_of_nil;
    (split;
     [ intros [H|H]; try done; injection H as -> ->; auto
     | intros [(-> & -> & H)|(-> & -> & H)]; try discriminate; auto ]).
Qed.

(** X11.  [/campaigns/voice/:id] answers 400 without calling the provider when
    the id is empty. *)
Theorem campaigns_rejects_empty_id (page per_page : JSValue) :
  no_faults E →
  get_campaigns E cfg "" page per_page []
  = (Normal tt,
     [Log (LCampaignsReceived ""); Log LMissingParams;
      Reply 400 (JObj [("error", JStr "Parâmetros obrigatórios ausentes.")])]).
Proof.
  intros Hnf. unfold get_campaigns. run Hnf.
  change (negb (truthy (JStr ""))) with true. cbn iota. by run Hnf.
Qed.

(** X12.  With an id, [/campaigns/voice/:id] issues one GET whose [params] hold
    [page] and [per_page] exactly when they are truthy, and relays the
    outcome: a 404 of the provider is answered with the provider's own
    body. *)
Theorem campaigns_relays (id : string) (page per_page : JSValue) :
  no_faults E →
  id ≠ "" →
  ∃ w params,
    get_campaigns E cfg id page per_page [] = (Normal tt, w)
    ∧ calls w
      = [AxiosGet ("https://api.liguelead.com.br/v1/campaigns/voice/" +:+ id)
           [("api-token", apiToken cfg); ("app-id", appId cfg)] (Some params)]
    ∧ (∀ k v, (k, v) ∈ params ↔
                (k = "page" ∧ v = page ∧ truthy page = true)
                ∨ (k = "per_page" ∧ v = per_page ∧ truthy per_page = true))
    ∧ replies w
      = [relayed (axios E 0
           (AxiosGet ("https://api.liguelead.com.br/v1/campaigns/voice/" +:+ id)
              [("api-token", apiToken cfg); ("app-id", appId cfg)] (Some params)))].
Proof.
  intros Hnf Hid. unfold get_campaigns, credentials. run Hnf.
  assert (Htruthy : truthy (JStr id) = true).
  { simpl. apply negb_true_iff, String.eqb_neq. done. }
  rewrite Htruthy. cbn [negb]. run Hnf.
  destruct (axios E 0 _) as [resp|err] eqn:Hax;
    [|simpl; destruct (response err) as [r|] eqn:Hr].
  all: run Hnf; unfold is_404; rewrite ?Hr; run Hnf.
  all: eexists; eexists; split; [reflexivity|]; split; [reflexivity|].
  all: rewrite Hax; simpl; rewrite ?Hr; split; [|reflexivity].
  all: intros k v; apply params_spec.
Qed.

(** X13.  [/audio] answers 400 when no file was uploaded, when [title] is falsy
    or when a credential is empty, and then builds no form and calls
    nobody. *)
Theorem audio_rejects_incomplete (body : JSValue) (file : option UploadedFile) :
  no_faults E →
  body ≠ JUndefined → body ≠ JNull →
  file = None ∨ truthy (field body "title") = false
  ∨ apiToken cfg = "" ∨ appId cfg = "" →
  post_audio E cfg body file []
  = (Normal tt,
     [Log LAudioReceived; Log LMissingParams;
      Reply 400 (JObj [("error", JStr "Parâmetros obrigatórios ausentes.")])]).
Proof.
  intros Hnf Hu Hn Hbad. unfold post_audio. run Hnf.
  assert (Hd : destructure E body "title" = mret (field body "title"))
    by (by destruct body).
  rewrite Hd. run Hnf.
  assert (Hinvalid : negb (truthy (JStr (apiToken cfg)))
                     || negb (truthy (JStr (appId cfg)))
                     || negb (bool_decide (is_Some file))
                     || negb (truthy (field body "title")) = true).
  { destruct Hbad as [->|[->|[->| ->]]]; simpl; rewrite ?orb_true_r; done. }
  rewrite Hinvalid. by run Hnf.
Qed.

(** X14.  A complete [/audio] request posts one form, the title and the
    stream of the uploaded file under its original name, with the
    credentials and the form's own headers.  Whatever the failure of that
    call, with or without response, the answer is HTTP 500 with the
    error's message: the status and the body the provider answered are not
    relayed. *)
Theorem audio_failures_are_500 (body : JSValue) (f : UploadedFile) :
  no_faults E →
  body ≠ JUndefined → body ≠ JNull →
  truthy (field body "title") = true →
  apiToken cfg ≠ "" → appId cfg ≠ "" →
  let call := AxiosPostForm "https://api.liguelead.com.br/v1/audio"
                [FormField "title" (field body "title");
                 FormStream "audio" (file_path f) (originalname f)]
                ([("api-token", apiToken cfg); ("app-id", appId cfg)]
                 ++ form_headers E) in
  ∃ w, post_audio E cfg body (Some f) [] = (Normal tt, w)
       ∧ calls w = [call]
       ∧ replies w
         = [match axios E 0 call with
            | Normal resp => (200, data resp)
            | Throw err => (500, JObj [("error", JStr (message err))])
            end].
Proof.
  intros Hnf Hu Hn Ht Htok Happ call. subst call. unfold post_audio, credentials.
  run Hnf.
  assert (Hd : destructure E body "title" = mret (field body "title"))
    by (by destruct body).
  rewrite Hd. run Hnf.
  assert (Hvalid : negb (truthy (JStr (apiToken cfg)))
                   || negb (truthy (JStr (appId cfg)))
                   || negb (bool_decide (is_Some (Some f)))
                   || negb (truthy (field body "title")) = false).
  { rewrite Ht. simpl. apply String.eqb_neq in Htok, Happ. by rewrite Htok, Happ. }
  rewrite Hvalid. unfold file_object. run Hnf.
  destruct (axios E 0 _) as [resp|err]; run Hnf; finish.
Qed.

(** X15.  Without a parsed body ([req.body] is [undefined] or [null]) [/voice]
    raises out of the handler without answering, its destructuring being
    outside the [try]; [/audio], which destructures inside its [try],
    answers HTTP 500 with the message of the [TypeError]. *)
Theorem missing_body (body : JSValue) (file : option UploadedFile) :
  no_faults E →
  body = JUndefined ∨ body = JNull →
  post_voice E cfg body [] = (Throw (type_error E body), [Log LVoiceReceived])
  ∧ post_audio E cfg body file []
    = (Normal tt,
       [Log LAudioReceived;
        Log (LProcessError (message (type_error E body)));
        Reply 500 (JObj [("error", JStr (message (type_error E body)))])]).
Proof.
  intros Hnf [-> | ->]; unfold post_voice, post_audio; run Hnf;
    cbn [destructure]; unfold throw; by run Hnf.
Qed.

(** *** Any environment *)

Lemma gw_calls_app (w1 w2 : World) : calls (w1 ++ w2) = calls w1 ++ calls w2.
Proof. apply omap_app. Qed.

Lemma gw_replies_app (w1 w2 : World) : replies (w1 ++ w2) = replies w1 ++ replies w2.
Proof. apply omap_app. Qed.

Lemma gw_logs_app (w1 w2 : World) : logs (w1 ++ w2) = logs w1 ++ logs w2.
Proof. apply omap_app. Qed.

Ltac post :=
  intros; cbn beta; unfold single_shot in *;
  repeat match goal with H : _ ∧ _ |- _ => destruct H end;
  simpl in *; rewrite ?gw_calls_app, ?gw_replies_app, ?length_app in *; simpl in *;
  repeat match goal with
         | H : replies _ = [] |- _ => rewrite H in *; clear H
         end;
  simpl in *; try (split; [lia|]); try lia; try done.

(** [resp ← axios_call call; k resp] *)
Lemma runs_axios_call_then {B} (call : Call) (k : HttpResponse → M B)
    (Q : Completion B → World → Prop) :
  (∀ err, Q (Throw err) [Called call]) →
  (∀ resp, runs (k resp) (λ c evs, Q c (Called call :: evs))) →
  runs (axios_call E call ≫= k) Q.
Proof.
  intros Hthrow Hk.
  apply (eff_runs_bind _ _ (λ _ evs, evs = [Called call])).
  - intros w. by exists [Called call].
  - intros err evs1 ->. apply Hthrow.
  - intros resp evs1 ->. apply Hk.
Qed.

Lemma runs_destructure_then {B} (v : JSValue) (k : string) (f : JSValue → M B)
    (Q : Completion B → World → Prop) :
  (∀ err, Q (Throw err) []) →
  (∀ x, runs (f x) Q) →
  runs (destructure E v k ≫= f) Q.
Proof.
  intros Hthrow Hf.
  apply (eff_runs_bind _ _ (λ _ evs, evs = [])).
  - destruct v; simpl; (apply eff_runs_ret || apply eff_runs_throw); done.
  - intros err evs1 ->. apply Hthrow.
  - intros x evs1 ->. apply Hf.
Qed.

(** The [catch] blocks answer once and call nobody. *)
Lemma process_error_single (error : JSError) (evs1 : World) :
  (length (calls evs1) ≤ 1)%nat → replies evs1 = [] →
  runs (process_error E error) (λ c evs2, single_shot c (evs1 ++ evs2)).
Proof.
  intros Hc Hr. unfold process_error, console_log, res_status_json.
  apply eff_runs_perform_then; [post|].
  apply eff_runs_perform; post.
Qed.

Lemma get_audios_single : runs (get_audios E cfg) single_shot.
Proof.
  unfold get_audios, console_log, res_json, res_status_json.
  apply eff_runs_perform_then; [post|].
  apply (eff_runs_try_catch _ _ (λ c evs, single_shot c (Log LAudiosReceived :: evs))).
  - apply eff_runs_perform_then; [post|].
    apply runs_axios_call_then; [post|]. intros resp.
    apply eff_runs_perform_then; [post|].
    apply eff_runs_perform_then; [post|].
    apply eff_runs_perform; post.
  - done.
  - intros err evs1 [Hc Hr]. destruct (response err) as [r|].
    + apply eff_runs_perform_then; [post|]. apply eff_runs_perform; post.
    + by apply (process_error_single err (Log LAudiosReceived :: evs1)).
Qed.

Lemma get_audio_single (id : string) : runs (get_audio E cfg id) single_shot.
Proof.
  unfold get_audio, console_log, res_json, res_status_json.
  apply eff_runs_perform_then; [post|].
  apply (eff_runs_try_catch _ _ (λ c evs, single_shot c (Log (LAudioByIdReceived id) :: evs))).
  - apply eff_runs_perform_then; [post|].
    apply runs_axios_call_then; [post|]. intros resp.
    apply eff_runs_perform_then; [post|].
    apply eff_runs_perform; post.
  - done.
  - intros err evs1 [Hc Hr]. destruct (is_404 err).
    all: apply eff_runs_perform_then; [post|]; apply eff_runs_perform; post.
Qed.

Lemma post_voice_single (body : JSValue) : runs (post_voice E cfg body) single_shot.
Proof.
  unfold post_voice, console_log, res_json, res_status_json.
  apply eff_runs_perform_then; [post|].
  apply runs_destructure_then; [post|]. intros title.
  apply runs_destructure_then; [post|]. intros audio_id.
  apply runs_destructure_then; [post|]. intros phones.
  destruct (_ || _).
  { apply eff_runs_perform_then; [post|]. apply eff_runs_perform; post. }
  apply (eff_runs_try_catch _ _ (λ c evs, single_shot c (Log LVoiceReceived :: evs))).
  - apply eff_runs_perform_then; [post|].
    apply runs_axios_call_then; [post|]. intros resp.
    apply eff_runs_perform_then; [post|].
    apply eff_runs_perform; post.
  - done.
  - intros err evs1 [Hc Hr]. destruct (response err) as [r|].
    + apply eff_runs_perform_then; [post|].
      destruct (_ && _).
      * apply eff_runs_perform_then; [post|]. apply eff_runs_perform; post.
      * apply (eff_runs_bind _ _ (λ _ evs, evs = [])).
        -- by apply eff_runs_ret.
        -- intros err' evs2 ->. post.
        -- intros [] evs2 ->. apply eff_runs_perform; post.
    + by apply (process_error_single err (Log LVoiceReceived :: evs1)).
Qed.

Lemma get_campaigns_single (id : string) (page per_page : JSValue) :
  runs (get_campaigns E cfg id page per_page)
    (λ c evs, single_shot c evs ∧ LCampaignNotFound ∉ logs evs).
Proof.
  unfold get_campaigns, console_log, res_json, res_status_json.
  assert (Hlog : ∀ l evs, l ≠ LCampaignNotFound →
                   LCampaignNotFound ∉ logs evs →
                   LCampaignNotFound ∉ logs (Log l :: evs)).
  { intros l evs Hl He. simpl. by apply not_elem_of_cons. }
  apply eff_runs_perform_then; [split; [post | by apply not_elem_of_nil]|].
  destruct (negb _).
  { apply eff_runs_perform_then; [split; [post | by repeat apply Hlog; try apply not_elem_of_nil]|].
    apply eff_runs_perform; (split; [post | by repeat apply Hlog; try apply not_elem_of_nil]). }
  apply (eff_runs_try_catch _ _
           (λ c evs, single_shot c (Log (LCampaignsReceived id) :: evs)
                     ∧ LCampaignNotFound ∉ logs evs)).
  - apply eff_runs_perform_then; [split; [post | by apply not_elem_of_nil]|].
    apply runs_axios_call_then;
      [split; [post | by repeat apply Hlog; try apply not_elem_of_nil]|].
    intros resp.
    apply eff_runs_perform_then;
      [split; [post | by repeat apply Hlog; try apply not_elem_of_nil]|].
    apply eff_runs_perform;
      (split; [post | by repeat apply Hlog; try apply not_elem_of_nil]).
  - intros a evs1 [Hs Hl]. split; [done|]. by apply Hlog.
  - intros err evs1 [[Hc Hr] Hl].
    assert (Hpre : ∀ evs2, LCampaignNotFound ∉ logs evs2 →
                     LCampaignNotFound ∉ logs (Log (LCampaignsReceived id) :: evs1 ++ evs2)).
    { intros evs2 H2. apply Hlog; [done|]. rewrite gw_logs_app.
      by apply not_elem_of_app. }
    destruct (response err) as [r|] eqn:Hresp.
    + apply eff_runs_perform_then; [split; [post | by apply Hpre, not_elem_of_nil]|].
      apply eff_runs_perform;
        (split; [post | by apply Hpre; repeat apply Hlog; try apply not_elem_of_nil]).
    + unfold is_404. rewrite Hresp.
      apply eff_runs_perform_then; [split; [post | by apply Hpre, not_elem_of_nil]|].
      apply eff_runs_perform;
        (split; [post | by apply Hpre; repeat apply Hlog; try apply not_elem_of_nil]).
Qed.

Lemma post_audio_single (body : JSValue) (file : option UploadedFile) :
  runs (post_audio E cfg body file) single_shot.
Proof.
  unfold post_audio, console_log, res_json, res_status_json.
  apply (eff_runs_try_catch _ _ single_shot).
  - apply eff_runs_perform_then; [post|].
    apply runs_destructure_then; [post|]. intros title.
    destruct (_ || _).
    { apply eff_runs_perform_then; [post|]. apply eff_runs_perform; post. }
    apply (eff_runs_bind _ _ (λ _ evs, evs = [])).
    { destruct file; simpl; (apply eff_runs_ret || apply eff_runs_throw); done. }
    { intros err evs1 ->. post. }
    intros f evs1 ->.
    apply eff_runs_perform_then; [post|].
    apply eff_runs_perform_then; [post|].
    apply eff_runs_perform_then; [post|].
    apply runs_axios_call_then; [post|]. intros resp.
    apply eff_runs_perform_then; [post|].
    apply eff_runs_perform; post.
  - done.
  - intros err evs1 [Hc Hr]. by apply process_error_single.
Qed.

Lemma runs_once {A} (m : M A) (Q : Completion A → World → Prop) :
  runs m Q →
  (∀ c evs, Q c evs → single_shot c evs) →
  (length (calls (m []).2) ≤ 1)%nat ∧ (length (replies (m []).2) ≤ 1)%nat.
Proof.
  intros Hm HQ. destruct (Hm []) as (evs & Hw & H%HQ).
  rewrite Hw. simpl. destruct H as [Hc Hr]. split; [done|].
  destruct (m []).1; [done|]. rewrite Hr. simpl. lia.
Qed.

(** X16.  In any environment, whatever the console, the response object or the
    provider do, each of the five handlers issues at most one outbound call
    and answers at most once. *)
Theorem handlers_single_shot (body : JSValue) (file : option UploadedFile)
    (id : string) (page per_page : JSValue) :
  let once (w : World) := (length (calls w) ≤ 1)%nat ∧ (length (replies w) ≤ 1)%nat in
  once (post_audio E cfg body file []).2
  ∧ once (get_audios E cfg []).2
  ∧ once (get_audio E cfg id []).2
  ∧ once (post_voice E cfg body []).2
  ∧ once (get_campaigns E cfg id page per_page []).2.
Proof.
  intros once. unfold once. split; [|split; [|split; [|split]]].
  - apply (runs_once _ single_shot); [apply post_audio_single | done].
  - apply (runs_once _ single_shot); [apply get_audios_single | done].
  - apply (runs_once _ single_shot); [apply get_audio_single | done].
  - apply (runs_once _ single_shot); [apply post_voice_single | done].
  - apply (runs_once _ _ (get_campaigns_single id page per_page)). by intros c evs [H _].
Qed.

(** X17.  The branch of [/campaigns/voice/:id] that reports "Campanha não
    encontrada" is never taken, in any environment: it sits behind the
    branch that relays every error carrying a response. *)
Theorem campaign_not_found_never_logged (id : string) (page per_page : JSValue) :
  LCampaignNotFound ∉ logs (get_campaigns E cfg id page per_page []).2.
Proof.
  by destruct (get_campaigns_single id page per_page []) as (evs & -> & _ & H).
Qed.

End Handlers.

Lemma load_inv (env_token env_appid : option string) (cfg : Config) :
  load env_token env_appid = Normal cfg →
  ∃ token app_id,
    env_token = Some token ∧ env_appid = Some app_id
    ∧ token ≠ "" ∧ app_id ≠ ""
    ∧ cfg = {| apiToken := token; appId := app_id;
               env_APITOKEN := Some token; env_APPID := Some app_id |}.
Proof.
  unfold load, env_truthy.
  destruct env_token as [t|], env_appid as [a|]; simpl; try done.
  - destruct (String.eqb t "") eqn:Ht; [done|].
    destruct (String.eqb a "") eqn:Ha; [done|]. simpl.
    intros [= <-]. exists t, a. by apply String.eqb_neq in Ht, Ha.
  - by destruct (negb (String.eqb t "")).
Qed.

(** X18.  The module loads exactly when both variables are set and not
    empty, and then keeps their values. *)
Theorem load_succeeds_iff (env_token env_appid : option string) (cfg : Config) :
  load env_token env_appid = Normal cfg
  ↔ ∃ token app_id,
      env_token = Some token ∧ env_appid = Some app_id
      ∧ token ≠ "" ∧ app_id ≠ ""
      ∧ cfg = {| apiToken := token; appId := app_id;
                 env_APITOKEN := Some token; env_APPID := Some app_id |}.
Proof.
  split; [apply load_inv|].
  intros (t & a & -> & -> & Ht & Ha & ->). unfold load, env_truthy.
  apply String.eqb_neq in Ht, Ha. by rewrite Ht, Ha.
Qed.

(** *** Scenarios *)

Lemma provider_no_faults (outcome : Completion HttpResponse) : no_faults (provider outcome).
Proof. by intros h ev. Qed.

Lemma audios_relays_witness :
  ∃ w, get_audios (provider no_event) cfg0 [] = (Normal tt, w)
       ∧ calls w = [AxiosGet "https://api.liguelead.com.br/v1/audio"
                      [("api-token", "token"); ("app-id", "app")] None]
       ∧ replies w = [(422, JObj [("message", JStr "Nenhum evento encontrado")])].
Proof. apply (audios_relays (provider no_event) cfg0), provider_no_faults. Defined.

Lemma voice_rejects_invalid_witness :
  post_voice (provider no_event) cfg0
    (JObj [("title", JStr "Aviso"); ("audio_id", JNum 0);
           ("phones", JArr [JStr "5511999990000"])]) []
  = (Normal tt,
     [Log LVoiceReceived; Log LInvalidParams;
      Reply 400 (JObj [("error", JStr "Parâmetros obrigatórios ausentes ou inválidos.")])]).
Proof.
  apply (voice_rejects_invalid (provider no_event) cfg0).
  - apply provider_no_faults.
  - discriminate.
  - discriminate.
  - right; left. reflexivity.
Defined.

Lemma voice_relays_witness :
  ∃ w, post_voice (provider no_event) cfg0 voice_body [] = (Normal tt, w)
       ∧ calls w
         = [AxiosPost "https://api.liguelead.com.br/v1/voice"
              (JObj [("title", JStr "Aviso"); ("audio_id", JNum 7);
                     ("phones", JArr [JStr "5511999990000"])])
              [("api-token", "token"); ("app-id", "app");
               ("Content-Type", "application/json")]]
       ∧ replies w = [(422, JObj [("message", JStr "Nenhum evento encontrado")])].
Proof.
  apply (voice_relays (provider no_event) cfg0 voice_body (JStr "5511999990000") []).
  - apply provider_no_faults.
  - discriminate.
  - discriminate.
  - reflexivity.
  - reflexivity.
  - reflexivity.
Defined.

Lemma audio_by_id_outcomes_witness :
  ∃ w, get_audio (provider no_event) cfg0 "42" [] = (Normal tt, w)
       ∧ replies w
         = [(500, JObj [("error", JStr "Request failed with status code 422")])].
Proof.
  destruct (audio_by_id_outcomes (provider no_event) cfg0 "42" (provider_no_faults _))
    as (w & Hrun & _ & _ & _ & Hother).
  exists w. split; [exact Hrun|].
  apply (Hother (status_error 422 (JObj [("message", JStr "Nenhum evento encontrado")])
                   "Request failed with status code 422")).
  - reflexivity.
  - intros r [= <-]. discriminate.
Defined.

Lemma campaigns_rejects_empty_id_witness :
  get_campaigns (provider not_found) cfg0 "" (JStr "2") JUndefined []
  = (Normal tt,
     [Log (LCampaignsReceived ""); Log LMissingParams;
      Reply 400 (JObj [("error", JStr "Parâmetros obrigatórios ausentes.")])]).
Proof.
  apply (campaigns_rejects_empty_id (provider not_found) cfg0), provider_no_faults.
Defined.

Lemma campaigns_relays_witness :
  ∃ w params,
    get_campaigns (provider not_found) cfg0 "9" (JStr "2") JUndefined []
    = (Normal tt, w)
    ∧ calls w
      = [AxiosGet ("https://api.liguelead.com.br/v1/campaigns/voice/" +:+ "9")
           [("api-token", "token"); ("app-id", "app")] (Some params)]
    ∧ (∀ k v, (k, v) ∈ params ↔
                (k = "page" ∧ v = JStr "2" ∧ truthy (JStr "2") = true)
                ∨ (k = "per_page" ∧ v = JUndefined ∧ truthy JUndefined = true))
    ∧ replies w = [(404, JObj [("detail", JStr "unknown id")])].
Proof.
  apply (campaigns_relays (provider not_found) cfg0 "9" (JStr "2") JUndefined).
  - apply provider_no_faults.
  - discriminate.
Defined.

Lemma audio_rejects_incomplete_witness :
  post_audio (provider not_found) cfg0 (JObj [("title", JStr "Aviso")]) None []
  = (Normal tt,
     [Log LAudioReceived; Log LMissingParams;
      Reply 400 (JObj [("error", JStr "Parâmetros obrigatórios ausentes.")])]).
Proof.
  apply (audio_rejects_incomplete (provider not_found) cfg0).
  - apply provider_no_faults.
  - discriminate.
  - discriminate.
  - left. reflexivity.
Defined.

Lemma audio_failures_are_500_witness :
  ∃ w, post_audio (provider not_found) cfg0 (JObj [("title", JStr "Aviso")])
         (Some upload) []
       = (Normal tt, w)
       ∧ calls w
         = [AxiosPostForm "https://api.liguelead.com.br/v1/audio"
              [FormField "title" (JStr "Aviso");
               FormStream "audio" "uploads/3f2a" "aviso.mp3"]
              [("api-token", "token"); ("app-id", "app");
               ("content-type", "multipart/form-data; boundary=x")]]
       ∧ replies w
         = [(500, JObj [("error", JStr "Request failed with status code 404")])].
Proof.
  apply (audio_failures_are_500 (provider not_found) cfg0
           (JObj [("title", JStr "Aviso")]) upload).
  - apply provider_no_faults.
  - discriminate.
  - discriminate.
  - reflexivity.
  - discriminate.
  - discriminate.
Defined.

Lemma missing_body_witness :
  post_voice (provider not_found) cfg0 JUndefined []
  = (Throw (network_error "Cannot destructure property of 'req.body'"),
     [Log LVoiceReceived])
  ∧ post_audio (provider not_found) cfg0 JUndefined (Some upload) []
    = (Normal tt,
       [Log LAudioReceived;
        Log (LProcessError "Cannot destructure property of 'req.body'");
        Reply 500 (JObj [("error", JStr "Cannot destructure property of 'req.body'")])]).
Proof.
  apply (missing_body (provider not_found) cfg0 JUndefined (Some upload)).
  - apply provider_no_faults.
  - left. reflexivity.
Defined.

Lemma load_succeeds_iff_witness :
  load (Some "token") (Some "app") = Normal cfg0
  ∧ load (Some "token") (Some "") ≠ Normal cfg0.
Proof.
  split.
  - apply (load_succeeds_iff (Some "token") (Some "app") cfg0).
    exists "token", "app". by repeat split.
  - intros (t & a & _ & [= <-] & _ & Ha & _)%load_succeeds_iff. by apply Ha.
Defined.

End GatewayFacts.

(** *** Loading, then probing *)

(** X19.  After a successful load, and with the environment as it was
    then, every call of the prober carries the three headers: the content
    type, the token and the application id of the environment. *)
Theorem loaded_requests_carry_credentials (env_token env_appid : option string)
    (cfg : Config) (E : Env) (cands : list JSValue) (req : Request) :
  Gateway.load env_token env_appid = Normal cfg →
  req ∈ posts (probe E cfg cands []).2 →
  env_token = Some (apiToken cfg) ∧ env_appid = Some (appId cfg)
  ∧ req_headers req
    = [("Content-Type", "application/json");
       ("api-token", apiToken cfg); ("app-id", appId cfg)].
Proof.
  intros (t & a & -> & -> & Ht & Ha & ->)%GatewayFacts.load_inv Hin.
  split; [done|]. split; [done|].
  set (cfg := {| apiToken := t; appId := a;
                 env_APITOKEN := Some t; env_APPID := Some a |}) in *.
  destruct (probe_general E cfg cands []) as (evs & Hw & [n Hp] & _).
  rewrite Hw in Hin. simpl in Hin. rewrite Hp in Hin.
  apply list_elem_of_fmap in Hin as (p & -> & _).
  unfold request, headers, env_truthy. simpl.
  apply String.eqb_neq in Ht, Ha. by rewrite Ht, Ha.
Qed.

Lemma loaded_requests_carry_credentials_witness :
  Some "token" = Some (apiToken cfg0) ∧ Some "app" = Some (appId cfg0)
  ∧ req_headers (request cfg0 (JObj [("event", JStr "iniciar_flow")]))
    = [("Content-Type", "application/json");
       ("api-token", apiToken cfg0); ("app-id", appId cfg0)].
Proof.
  apply (loaded_requests_carry_credentials (Some "token") (Some "app") cfg0
           env_always_422 two_candidates).
  - reflexivity.
  - apply list_elem_of_In. left. reflexivity.
Defined.

(** ** Properties of the database path *)

Module DbPathFacts.

Import Effects EffectsFacts DbPath.

Section Resolve.

Variable P : Platform.
Variable raises : World → Event → option JSError.

Lemma perform_run (ev : Event) (w : World) :
  perform raises ev w
  = match raises w ev with
    | Some err => (Throw err, w)
    | None => (Normal tt, w ++ [ev])
    end.
Proof. reflexivity. Qed.

Lemma ensure_run (dir : string) (w : World) :
  ensureWritableDir raises dir w
  = match raises w (Mkdir dir) with
    | Some _ => (Normal false, w)
    | None =>
        match raises (w ++ [Mkdir dir]) (Access dir) with
        | Some _ => (Normal false, w ++ [Mkdir dir])
        | None => (Normal true, w ++ [Mkdir dir; Access dir])
        end
    end.
Proof.
  unfold ensureWritableDir. rewrite eff_try_catch_run, eff_bind_run, perform_run.
  destruct (raises w (Mkdir dir)); [by rewrite eff_ret_run|].
  rewrite eff_bind_run, perform_run.
  destruct (raises (w ++ [Mkdir dir]) (Access dir)); rewrite eff_ret_run; [done|].
  by rewrite <- app_assoc.
Qed.

(** X20.  [ensureWritableDir] never raises, and it answers [true] exactly when
    [mkdirSync] and then [accessSync] both went through. *)
Theorem ensureWritableDir_total (dir : string) (w : World) :
  ∃ ok w',
    ensureWritableDir raises dir w = (Normal ok, w')
    ∧ (ok = true ↔ raises w (Mkdir dir) = None
                   ∧ raises (w ++ [Mkdir dir]) (Access dir) = None)
    ∧ (ok = true → w' = w ++ [Mkdir dir; Access dir])
    ∧ (ok = false → w' = w ∨ w' = w ++ [Mkdir dir]).
Proof.
  rewrite ensure_run.
  destruct (raises w (Mkdir dir)) as [e1|].
  { exists false, w. repeat split; try done; [by intros [? _] | by left]. }
  destruct (raises (w ++ [Mkdir dir]) (Access dir)) as [e2|].
  { exists false, (w ++ [Mkdir dir]). repeat split; try done; [by intros [_ ?] | by right]. }
  exists true, (w ++ [Mkdir dir; Access dir]). by repeat split.
Qed.

Lemma ensure_writable (dir : string) (w : World) :
  writable raises dir →
  ensureWritableDir raises dir w = (Normal true, w ++ [Mkdir dir; Access dir]).
Proof.
  intros Hw. rewrite ensure_run.
  destruct (Hw w) as [-> _]. by destruct (Hw (w ++ [Mkdir dir])) as [_ ->].
Qed.

Lemma ensure_unwritable (dir : string) (w : World) :
  unwritable raises dir →
  ∃ w', ensureWritableDir raises dir w = (Normal false, w')
        ∧ (w' = w ∨ w' = w ++ [Mkdir dir]).
Proof.
  intros Hu. rewrite ensure_run.
  destruct (raises w (Mkdir dir)) as [e1|] eqn:H1; [eexists; split; [done | by left]|].
  destruct (raises (w ++ [Mkdir dir]) (Access dir)) as [e2|] eqn:H2;
    [eexists; split; [done | by right]|].
  destruct (Hu w) as [[e He]|[e He]]; congruence.
Qed.

Lemma checked_middle (w1 w2 : World) (dir : string) :
  checked (w1 ++ [Mkdir dir; Access dir] ++ w2) dir.
Proof. by exists w1, w2. Qed.

(** X21.  With a working console and outside test mode, a [DB_PATH] whose
    directory is writable is used: the path itself when it has an
    extension, the file [database.sqlite] in it otherwise; a relative
    value is resolved against the working directory.  No fallback
    directory is touched. *)
Theorem db_path_is_used (envPath : string) :
  console_works raises →
  isTest P = false →
  DB_PATH P = Some envPath → envPath ≠ "" →
  writable raises (env_target P envPath) →
  let resolved := if isAbsolute P envPath then envPath
                  else resolve P (cwd P) envPath in
  (extname P resolved ≠ "" →
   resolveDbPath P raises []
   = (Normal resolved,
      [Mkdir (dirname P resolved); Access (dirname P resolved);
       Print (LUsingFile resolved)]))
  ∧ (extname P resolved = "" →
     resolveDbPath P raises []
     = (Normal (join P [resolved; "database.sqlite"]),
        [Mkdir resolved; Access resolved;
         Print (LUsingDirectory (join P [resolved; "database.sqlite"]))])).
Proof.
  intros Hc Ht Henv Hne Hw resolved.
  unfold env_target in Hw. fold resolved in Hw.
  apply String.eqb_neq in Hne.
  split; intros Hext; unfold resolveDbPath; rewrite Ht, Henv, Hne; cbn [negb];
    rewrite eff_bind_run; unfold from_env, use_env_path; fold resolved;
    rewrite eff_try_catch_run.
  - apply String.eqb_neq in Hext. rewrite Hext in *. cbn [negb] in *.
    rewrite eff_bind_run, (ensure_writable _ _ Hw).
    by rewrite eff_bind_run, perform_run, Hc, !eff_ret_run.
  - rewrite Hext in *. cbn [negb String.eqb] in *.
    rewrite eff_bind_run, (ensure_writable _ _ Hw).
    by rewrite eff_bind_run, perform_run, Hc, !eff_ret_run.
Qed.

(** The block for an unusable [DB_PATH] returns nothing, touching at most
    the directory it tried to create. *)
Lemma from_env_unwritable (envPath : string) (w : World) :
  console_works raises →
  unwritable raises (env_target P envPath) →
  ∃ w', from_env P raises envPath w = (Normal None, w').
Proof.
  intros Hc Hu. unfold from_env, use_env_path, env_target in *.
  rewrite eff_try_catch_run.
  destruct (negb _).
  all: destruct (ensure_unwritable _ w Hu) as (w' & Hrun & _).
  all: rewrite eff_bind_run, Hrun, eff_bind_run, perform_run, Hc, eff_ret_run; by eexists.
Qed.

Lemma try_candidates_first_writable (pre : list string) : ∀ (dir : string)
    (post : list string) (w : World),
  console_works raises →
  Forall (unwritable raises) pre →
  writable raises dir →
  ∃ w', try_candidates P raises (pre ++ dir :: post) w
        = (Normal (Some (join P [dir; "database.sqlite"])), w')
        ∧ checked w' dir.
Proof.
  induction pre as [|d pre IH]; intros dir post w Hc Hpre Hw.
  - simpl. rewrite eff_bind_run, eff_try_catch_run. unfold use_candidate.
    rewrite eff_bind_run, (ensure_writable _ _ Hw).
    rewrite eff_bind_run, perform_run, Hc, !eff_ret_run.
    eexists. split; [done|]. rewrite <- app_assoc. apply checked_middle.
  - apply Forall_cons in Hpre as [Hd Hpre].
    cbn [app try_candidates]. rewrite eff_bind_run, eff_try_catch_run. unfold use_candidate.
    destruct (ensure_unwritable _ w Hd) as (w' & Hrun & _).
    rewrite eff_bind_run, Hrun, eff_bind_run, perform_run, Hc, eff_ret_run.
    by apply IH.
Qed.

Lemma try_candidates_none_writable (cands : list string) : ∀ (w : World),
  console_works raises →
  Forall (unwritable raises) cands →
  ∃ w', try_candidates P raises cands w = (Normal None, w').
Proof.
  induction cands as [|d cands IH]; intros w Hc Hall; [by eexists|].
  apply Forall_cons in Hall as [Hd Hall].
  cbn [try_candidates]. rewrite eff_bind_run, eff_try_catch_run. unfold use_candidate.
  destruct (ensure_unwritable _ w Hd) as (w' & Hrun & _).
  rewrite eff_bind_run, Hrun, eff_bind_run, perform_run, Hc, eff_ret_run.
  by apply IH.
Qed.

Lemma env_block_unusable (w : World) :
  console_works raises →
  db_path_unusable P raises →
  ∃ w', match DB_PATH P with
        | Some envPath =>
            if negb (String.eqb envPath "") then from_env P raises envPath
            else mret None
        | None => mret None
        end w = (Normal None, w').
Proof.
  intros Hc [-> | [-> | (p & -> & Hu)]]; [by eexists | by eexists |].
  destruct (negb _); [by apply from_env_unwritable | by eexists].
Qed.

(** X22.  Outside test mode and without a usable [DB_PATH], the database goes to
    the first of the three fallback directories that is writable, the
    earlier ones being skipped; with an unusable [DB_PATH] the module does
    not fail, it falls back as well. *)
Theorem fallback_to_first_writable (pre : list string) (dir : string)
    (post : list string) :
  console_works raises →
  isTest P = false →
  db_path_unusable P raises →
  candidates P = pre ++ dir :: post →
  Forall (unwritable raises) pre →
  writable raises dir →
  ∃ w, resolveDbPath P raises []
       = (Normal (join P [dir; "database.sqlite"]), w)
       ∧ checked w dir.
Proof.
  intros Hc Ht Henv Hcands Hpre Hw. unfold resolveDbPath. rewrite Ht.
  destruct (env_block_unusable [] Hc Henv) as (w1 & Hrun1).
  rewrite eff_bind_run, Hrun1, Hcands.
  destruct (try_candidates_first_writable pre dir post w1 Hc Hpre Hw) as (w2 & Hrun2 & Hch).
  rewrite eff_bind_run, Hrun2, eff_ret_run. by exists w2.
Qed.

(** X23.  The database is in memory in test mode, where [DB_PATH] is ignored and
    no directory is created or probed, and, outside test mode, when neither
    [DB_PATH] nor any of the three fallback directories is writable. *)
Theorem in_memory_database :
  console_works raises →
  (isTest P = true →
   resolveDbPath P raises [] = (Normal ":memory:", [Print LTestMode]))
  ∧ (isTest P = false →
     db_path_unusable P raises →
     Forall (unwritable raises) (candidates P) →
     ∃ w, resolveDbPath P raises [] = (Normal ":memory:", w ++ [Print LNothingWritable])).
Proof.
  intros Hc. split.
  - intros Ht. unfold resolveDbPath. rewrite Ht.
    by rewrite eff_bind_run, perform_run, Hc, eff_ret_run.
  - intros Ht Henv Hall. unfold resolveDbPath. rewrite Ht.
    destruct (env_block_unusable [] Hc Henv) as (w1 & Hrun1).
    rewrite eff_bind_run, Hrun1.
    destruct (try_candidates_none_writable (candidates P) w1 Hc Hall) as (w2 & Hrun2).
    rewrite eff_bind_run, Hrun2, eff_bind_run, perform_run, Hc, eff_ret_run.
    by exists w2.
Qed.

(** *** Any file system, any console *)

Lemma checked_app_r (w1 w2 : World) (dir : string) :
  checked w2 dir → checked (w1 ++ w2) dir.
Proof. intros (a & b & ->). exists (w1 ++ a), b. by rewrite <- app_assoc. Qed.

Lemma checked_app_l (w1 w2 : World) (dir : string) :
  checked w1 dir → checked (w1 ++ w2) dir.
Proof. intros (a & b & ->). exists a, (b ++ w2). by rewrite <- !app_assoc. Qed.

Lemma ensureWritableDir_runs (dir : string) :
  runs (ensureWritableDir raises dir)
    (λ c evs, match c with
              | Normal true => evs = [Mkdir dir; Access dir]
              | Normal false => True
              | Throw _ => False
              end).
Proof.
  intros w. rewrite ensure_run.
  destruct (raises w (Mkdir dir)); [exists []; simpl; by rewrite app_nil_r|].
  destruct (raises (w ++ [Mkdir dir]) (Access dir)); [by exists [Mkdir dir]|].
  by exists [Mkdir dir; Access dir].
Qed.

Lemma use_env_path_sound (envPath : string) :
  runs (use_env_path P raises envPath) (sound P).
Proof.
  unfold use_env_path. destruct (negb _).
  - eapply eff_runs_bind; [apply ensureWritableDir_runs|done|].
    intros [|] evs1 Hevs; [subst evs1|].
    + apply eff_runs_perform_then; [done|]. apply eff_runs_ret.
      intros path [= <-]. left. apply (checked_middle [] [_]).
    + apply eff_runs_perform_then; [done|]. by apply eff_runs_ret.
  - eapply eff_runs_bind; [apply ensureWritableDir_runs|done|].
    intros [|] evs1 Hevs; [subst evs1|].
    + apply eff_runs_perform_then; [done|]. apply eff_runs_ret.
      intros path [= <-]. right. eexists. split; [apply (checked_middle [] [_])|done].
    + apply eff_runs_perform_then; [done|]. by apply eff_runs_ret.
Qed.

Lemma from_env_sound (envPath : string) : runs (from_env P raises envPath) (sound P).
Proof.
  unfold from_env.
  apply (eff_runs_try_catch _ _ (sound P)); [apply use_env_path_sound|done|].
  intros err evs1 _. apply eff_runs_perform_then; [done|]. by apply eff_runs_ret.
Qed.

Lemma use_candidate_sound (dir : string) : runs (use_candidate P raises dir) (sound P).
Proof.
  unfold use_candidate.
  eapply eff_runs_bind; [apply ensureWritableDir_runs|done|].
  intros [|] evs1 Hevs; [subst evs1|].
  - apply eff_runs_perform_then; [done|]. apply eff_runs_ret.
    intros path [= <-]. right. eexists. split; [apply (checked_middle [] [_])|done].
  - apply eff_runs_perform_then; [done|]. by apply eff_runs_ret.
Qed.

Lemma sound_app_r (c : Completion (option string)) (evs1 evs2 : World) :
  sound P c evs2 → sound P c (evs1 ++ evs2).
Proof.
  intros H path Hc. destruct (H path Hc) as [Hd|(dir & Hd & ->)].
  - left. by apply checked_app_r.
  - right. exists dir. split; [by apply checked_app_r|done].
Qed.

Lemma sound_app_l (c : Completion (option string)) (evs1 evs2 : World) :
  sound P c evs1 → sound P c (evs1 ++ evs2).
Proof.
  intros H path Hc. destruct (H path Hc) as [Hd|(dir & Hd & ->)].
  - left. by apply checked_app_l.
  - right. exists dir. split; [by apply checked_app_l|done].
Qed.

Lemma try_candidates_sound (cands : list string) :
  runs (try_candidates P raises cands) (sound P).
Proof.
  induction cands as [|dir cands IH]; [by apply eff_runs_ret|].
  cbn [try_candidates].
  apply (eff_runs_bind _ _ (sound P)).
  - apply (eff_runs_try_catch _ _ (sound P)); [apply use_candidate_sound|done|].
    intros err evs1 _. apply eff_runs_perform_then; [done|]. by apply eff_runs_ret.
  - done.
  - intros [file|] evs1 Hs.
    + apply eff_runs_ret. by rewrite app_nil_r.
    + intros w. destruct (IH w) as (evs2 & Hw & Hs2).
      exists evs2. split; [done|]. by apply sound_app_r.
Qed.

(** X24.  Whatever the file system and the console do, a path the function
    returns is [":memory:"], or a file whose directory went through
    [mkdirSync] and the write-access check during the call, or
    [database.sqlite] in such a directory. *)
Theorem resolved_path_was_checked (path : string) (w : World) :
  resolveDbPath P raises [] = (Normal path, w) →
  path = ":memory:"
  ∨ checked w (dirname P path)
  ∨ ∃ dir, checked w dir ∧ path = join P [dir; "database.sqlite"].
Proof.
  assert (Hruns : runs (resolveDbPath P raises)
            (λ c evs, ∀ p, c = Normal p →
               p = ":memory:"
               ∨ checked evs (dirname P p)
               ∨ ∃ dir, checked evs dir ∧ p = join P [dir; "database.sqlite"])).
  { unfold resolveDbPath. destruct (isTest P).
    { apply eff_runs_perform_then; [done|]. apply eff_runs_ret. intros p [= <-]. by left. }
    apply (eff_runs_bind _ _ (sound P)).
    - destruct (DB_PATH P) as [envPath|]; [|by apply eff_runs_ret].
      destruct (negb _); [apply from_env_sound | by apply eff_runs_ret].
    - done.
    - intros [p|] evs1 Hs.
      + apply eff_runs_ret. intros p' [= <-]. right. rewrite app_nil_r. by apply Hs.
      + apply (eff_runs_bind _ _ (sound P)); [apply try_candidates_sound|done|].
        intros [file|] evs2 Hs2.
        * apply eff_runs_ret. intros p' [= <-]. right. rewrite app_nil_r.
          by apply (sound_app_r (Normal (Some file)) evs1 evs2 Hs2).
        * apply eff_runs_perform_then; [done|]. apply eff_runs_ret. intros p' [= <-]. by left. }
  intros Hrun. destruct (Hruns []) as (evs & Hw & HQ).
  rewrite Hrun in Hw, HQ. simpl in Hw. subst w. by apply HQ.
Qed.

End Resolve.




(** *** Scenarios *)

Lemma only_writable_console (dirs : list string) : console_works (only_writable dirs).
Proof. by intros h line. Qed.

Lemma only_writable_in (dirs : list string) (dir : string) :
  dir ∈ dirs → writable (only_writable dirs) dir.
Proof. intros Hin h. unfold only_writable. by rewrite bool_decide_eq_true_2. Qed.

Lemma only_writable_out (dirs : list string) (dir : string) :
  dir ∉ dirs → unwritable (only_writable dirs) dir.
Proof.
  intros Hout h. left. unfold only_writable. rewrite bool_decide_eq_false_2 by done.
  by eexists.
Qed.

Lemma db_path_is_used_witness :
  resolveDbPath (container (Some "production") (Some "/var/data/app.sqlite"))
    (only_writable ["/var/data"]) []
  = (Normal "/var/data/app.sqlite",
     [Mkdir "/var/data"; Access "/var/data"; Print (LUsingFile "/var/data/app.sqlite")]).
Proof.
  apply (db_path_is_used (container (Some "production") (Some "/var/data/app.sqlite"))
           (only_writable ["/var/data"]) "/var/data/app.sqlite").
  - apply only_writable_console.
  - reflexivity.
  - reflexivity.
  - discriminate.
  - apply only_writable_in. vm_compute. left.
  - vm_compute. discriminate.
Defined.

Lemma fallback_to_first_writable_witness :
  ∃ w, resolveDbPath (container None None) (only_writable ["/tmp"]) []
       = (Normal "/tmp/database.sqlite", w)
       ∧ checked w "/tmp".
Proof.
  apply (fallback_to_first_writable (container None None) (only_writable ["/tmp"])
           ["/app/data"; "/root/.local/share/octor-api"] "/tmp" []).
  - apply only_writable_console.
  - reflexivity.
  - left. reflexivity.
  - reflexivity.
  - constructor; [|constructor; [|constructor]];
      apply only_writable_out; by intros [=]%list_elem_of_singleton.
  - apply only_writable_in. left.
Defined.

Lemma in_memory_database_witness :
  resolveDbPath (container (Some "test") (Some "/var/data/app.sqlite"))
    (only_writable ["/var/data"]) []
  = (Normal ":memory:", [Print LTestMode])
  ∧ ∃ w, resolveDbPath (container None (Some "/var/data")) (only_writable []) []
         = (Normal ":memory:", w ++ [Print LNothingWritable]).
Proof.
  split.
  - apply (in_memory_database (container (Some "test") (Some "/var/data/app.sqlite"))
             (only_writable ["/var/data"])).
    + apply only_writable_console.
    + reflexivity.
  - apply (in_memory_database (container None (Some "/var/data")) (only_writable [])).
    + apply only_writable_console.
    + reflexivity.
    + right; right. exists "/var/data". split; [reflexivity|].
      apply only_writable_out, not_elem_of_nil.
    + constructor; [|constructor; [|constructor; [|constructor]]];
        apply only_writable_out, not_elem_of_nil.
Defined.

Lemma resolved_path_was_checked_witness :
  "/app/data/database.sqlite" = ":memory:"
  ∨ checked [Mkdir "/app/data"; Access "/app/data";
             Print (LUsingCandidate "/app/data/database.sqlite")]
      (posix_dirname "/app/data/database.sqlite")
  ∨ ∃ dir, checked [Mkdir "/app/data"; Access "/app/data";
                    Print (LUsingCandidate "/app/data/database.sqlite")] dir
           ∧ "/app/data/database.sqlite" = String.concat "/" [dir; "database.sqlite"].
Proof.
  apply (resolved_path_was_checked (container None None)
           (only_writable ["/app/data"; "/tmp"])).
  reflexivity.
Defined.

End DbPathFacts.

(** ** Properties of the token middleware *)

Module AuthFacts.

Import Effects EffectsFacts Auth.

Lemma split_space_nonempty (s : string) : split_space s ≠ [].
Proof.
  induction s as [|c s IH]; [done|]. simpl.
  destruct (Ascii.eqb c " "); [done|]. by destruct (split_space s).
Qed.

(** The first piece ends at the first space. *)
Lemma split_space_app (a b : string) :
  spaceless a → split_space (a +:+ " " +:+ b) = a :: split_space b.
Proof.
  induction a as [|c a IH]; intros Ha; [done|].
  destruct Ha as [Hc Ha]. simpl.
  apply Ascii.eqb_neq in Hc. rewrite Hc.
  by rewrite (IH Ha).
Qed.

Lemma split_space_spaceless (a : string) : spaceless a → split_space a = [a].
Proof.
  induction a as [|c a IH]; intros Ha; [done|].
  destruct Ha as [Hc Ha]. simpl.
  apply Ascii.eqb_neq in Hc. by rewrite Hc, (IH Ha).
Qed.

(** Every text is a piece without space, alone or followed by a space and
    the rest. *)
Lemma first_piece (header : string) :
  ∃ piece, spaceless piece
           ∧ (header = piece ∨ ∃ more, header = piece +:+ " " +:+ more).
Proof.
  induction header as [|c t (piece & Hs & IH)]; [by exists ""; split; [|left]|].
  destruct (Ascii.eqb c " ") eqn:Hc.
  - apply Ascii.eqb_eq in Hc as ->. exists "". split; [done|]. right. by exists t.
  - apply Ascii.eqb_neq in Hc. exists (String c piece). split; [done|].
    destruct IH as [-> | [more ->]]; [by left|]. right. by exists more.
Qed.

Section Middleware.

Variable E : Env.

(** X25.  In any environment the middleware does one thing at most, and it calls
    [next] only with the payload [jwt.verify] decoded from the second
    piece of a header whose first piece is "Bearer" in any letter case. *)
Theorem next_only_with_verified_token (authHeader : option string) :
  (length (authenticateToken E authHeader []).2 ≤ 1)%nat
  ∧ ∀ user, Next user ∈ (authenticateToken E authHeader []).2 →
      ∃ header,
        authHeader = Some header ∧ header ≠ ""
        ∧ is_bearer (default "undefined" (split_space header !! 0%nat)) = true
        ∧ verify E (split_space header !! 1%nat) (JWT_SECRET E) = inr user.
Proof.
  unfold authenticateToken, try_catch, res_status_json, perform.
  destruct authHeader as [header|]; [destruct (String.eqb header "") eqn:Hh|].
  2: destruct (is_bearer _) eqn:Hb; cbn [negb];
     [destruct (verify E _ _) as [err|user] eqn:Hv|].
  all: repeat match goal with
              | |- context [raises E ?h ?ev] => destruct (raises E h ev)
              end.
  all: simpl; split; [lia|]; intros u Hin.
  all: repeat match goal with
              | H : _ ∈ [] |- _ => by apply elem_of_nil in H
              | H : _ ∈ [_] |- _ => apply list_elem_of_singleton in H
              end; try discriminate.
  injection Hin as ->. exists header. apply String.eqb_neq in Hh. done.
Qed.

(** X26.  A header made of "Bearer" in any letter case, one space and a token is
    passed to [jwt.verify]; whatever follows a second space is ignored.
    The request goes on when the token verifies and is answered 403
    otherwise. *)
Theorem bearer_token_is_second_piece (scheme token tail : string) :
  no_faults E →
  spaceless scheme → is_bearer scheme = true →
  spaceless token →
  tail = "" ∨ (∃ more, tail = " " +:+ more) →
  authenticateToken E (Some (scheme +:+ " " +:+ token +:+ tail)) []
  = (Normal tt,
     [match verify E (Some token) (JWT_SECRET E) with
      | inr user => Next user
      | inl _ => Reply 403 (JObj [("error", JStr "Token inválido ou expirado")])
      end]).
Proof.
  intros Hnf Hs Hb Ht Htail.
  assert (Hparts : ∃ others, split_space (scheme +:+ " " +:+ token +:+ tail)
                              = scheme :: token :: others).
  { rewrite (split_space_app _ _ Hs). destruct Htail as [-> | [more ->]].
    - exists []. replace (token +:+ "") with token; [by rewrite split_space_spaceless|].
      clear. induction token as [|c t IH]; [done|].
      change (String c t +:+ "") with (String c (t +:+ "")). by f_equal.
    - exists (split_space more). by rewrite (split_space_app _ _ Ht). }
  destruct Hparts as [others Hparts].
  assert (Hne : String.eqb (scheme +:+ " " +:+ token +:+ tail) "" = false).
  { destruct scheme; [done|]. done. }
  unfold authenticateToken, try_catch, res_status_json, perform.
  rewrite Hne, Hparts. simpl. rewrite Hb. simpl.
  destruct (verify E (Some token) (JWT_SECRET E)); by rewrite Hnf.
Qed.

(** X27.  No header or an empty one is answered 401 "Token ausente".  A
    header whose first piece is not "Bearer" in some letter case is
    answered 401 "Formato de token inválido", whether the piece is the
    whole header or is followed by a space and anything else.  Every header
    is of one of these two forms, its first piece being the text before
    its first space. *)
Theorem malformed_header_is_401 (scheme rest : string) :
  no_faults E →
  authenticateToken E None []
  = (Normal tt, [Reply 401 (JObj [("error", JStr "Token ausente")])])
  ∧ authenticateToken E (Some "") []
    = (Normal tt, [Reply 401 (JObj [("error", JStr "Token ausente")])])
  ∧ (spaceless scheme → is_bearer scheme = false →
     (scheme ≠ "" →
      authenticateToken E (Some scheme) []
      = (Normal tt, [Reply 401 (JObj [("error", JStr "Formato de token inválido")])]))
     ∧ authenticateToken E (Some (scheme +:+ " " +:+ rest)) []
       = (Normal tt, [Reply 401 (JObj [("error", JStr "Formato de token inválido")])]))
  ∧ (∀ header, ∃ piece,
       spaceless piece
       ∧ (header = piece ∨ ∃ more, header = piece +:+ " " +:+ more)).
Proof.
  intros Hnf. split; [|split; [|split]].
  - unfold authenticateToken, try_catch, res_status_json, perform. by rewrite Hnf.
  - unfold authenticateToken, try_catch, res_status_json, perform. simpl. by rewrite Hnf.
  - intros Hs Hb. split.
    + intros Hne. apply String.eqb_neq in Hne.
      unfold authenticateToken, try_catch, res_status_json, perform.
      rewrite Hne, (split_space_spaceless _ Hs). simpl. rewrite Hb. simpl.
      by rewrite Hnf.
    + assert (Hne : String.eqb (scheme +:+ " " +:+ rest) "" = false)
        by (by destruct scheme).
      unfold authenticateToken, try_catch, res_status_json, perform.
      rewrite Hne, (split_space_app _ _ Hs). simpl. rewrite Hb. simpl.
      by rewrite Hnf.
  - apply first_piece.
Qed.

End Middleware.

(** *** Scenarios *)

Lemma bearer_token_is_second_piece_witness :
  authenticateToken (accepting "abc.def.ghi" (JObj [("id", JNum 1)]))
    (Some "bearer abc.def.ghi and more") []
  = (Normal tt, [Next (JObj [("id", JNum 1)])]).
Proof.
  apply (bearer_token_is_second_piece (accepting "abc.def.ghi" (JObj [("id", JNum 1)]))
           "bearer" "abc.def.ghi" " and more").
  - by intros h ev.
  - simpl. repeat split; discriminate.
  - reflexivity.
  - simpl. repeat split; discriminate.
  - right. exists "and more". reflexivity.
Defined.

Lemma malformed_header_is_401_witness :
  authenticateToken (accepting "abc.def.ghi" JNull) None []
  = (Normal tt, [Reply 401 (JObj [("error", JStr "Token ausente")])])
  ∧ authenticateToken (accepting "abc.def.ghi" JNull) (Some "") []
    = (Normal tt, [Reply 401 (JObj [("error", JStr "Token ausente")])])
  ∧ authenticateToken (accepting "abc.def.ghi" JNull) (Some "abc.def.ghi") []
    = (Normal tt, [Reply 401 (JObj [("error", JStr "Formato de token inválido")])])
  ∧ authenticateToken (accepting "abc.def.ghi" JNull) (Some "abc.def.ghi Bearer") []
    = (Normal tt, [Reply 401 (JObj [("error", JStr "Formato de token inválido")])]).
Proof.
  destruct (malformed_header_is_401 (accepting "abc.def.ghi" JNull)
              "abc.def.ghi" "Bearer")
    as (Hnone & Hempty & Hscheme & _).
  - by intros h ev.
  - split; [exact Hnone|]. split; [exact Hempty|].
    destruct Hscheme as [Halone Hmore].
    + simpl. repeat split; discriminate.
    + reflexivity.
    + split; [apply Halone; discriminate | exact Hmore].
Defined.

End AuthFacts.
